(** * Similarity scoring engine of the Jira similar-ticket finder

    A shallow embedding of [src/index.js] (with the weights of
    [src/config.js]) and the properties of its scoring pipeline:
    TF-IDF cosine similarity, the semantic adapter, the threshold-gated
    merge, the capped metadata boost and the final ranking.

    Modelling conventions.
    - A JavaScript number is a real number ([R]): arithmetic is exact, there
      is no rounding, no NaN and no Infinity.  Wherever the source divides,
      the theorems state separately that the divisor is not zero.
    - A JavaScript object used as a dictionary ([df], [tf], the score maps)
      is a finite map [gmap string _]; property lookup is map lookup, so
      keys are ordinary tokens and never resolve through [Object.prototype].
    - A JavaScript [Set] is the list of its elements in insertion order,
      without repetition ([SetOf]).
    - Exceptions and rejected promises are explicit: code that may throw
      returns a [Completion], and [try ... catch] is [try_catch].
    - The network is an oracle that answers the n-th request; [async] code
      threads the number of requests sent so far ([Async]).
    - Texts are strings of bytes; lower-casing and the word class [\w] act on
      ASCII, every other byte separates words. *)

From Stdlib Require Import Reals Lra Lia.
From stdpp Require Import gmap strings list fin_maps sorting.

Local Open Scope R_scope.

(** ** JavaScript idioms *)

#[global] Instance R_eq_dec : EqDecision R := Req_dec_T.

(** [x || d] where [x] is a number that may be [undefined]: the default is
    taken when [x] is missing or is [0]. *)
Definition or_num (x : option R) (d : R) : R :=
  match x with
  | Some v => if decide (v = 0) then d else v
  | None => d
  end.

(** The same idiom on a counter (a natural number that may be missing). *)
Definition or_count (x : option nat) (d : nat) : nat :=
  match x with
  | Some O => d
  | Some n => n
  | None => d
  end.

(** [x || d] on a string: the empty string is falsy. *)
Definition or_str (x : option string) (d : string) : string :=
  match x with
  | Some EmptyString => d
  | Some s => s
  | None => d
  end.

(** [Math.round]: the nearest integer, ties going up. *)
Definition Math_round (x : R) : R := IZR (Zfloor (x + / 2)).

Definition Math_min (x y : R) : R := Rmin x y.

(** [new Set(l)]: distinct elements, in order of first insertion. *)
Fixpoint SetOf {A} `{EqDecision A} (l : list A) : list A :=
  match l with
  | [] => []
  | x :: l' => x :: filter (λ y, y ≠ x) (SetOf l')
  end.

(** [s.has(x)] *)
Definition has {A} `{EqDecision A} (s : list A) (x : A) : bool :=
  bool_decide (x ∈ s).

(** ** Completions: a value, or a thrown exception *)

Inductive Completion (A : Type) : Type :=
| Normal (a : A)
| Throw (error : string).
Arguments Normal {A} a.
Arguments Throw {A} error.

#[global] Instance Completion_ret : MRet Completion := λ A a, Normal a.

#[global] Instance Completion_bind : MBind Completion := λ A B k c,
  match c with
  | Normal a => k a
  | Throw e => Throw e
  end.

(** An [async] computation: started when [n] requests have been sent to the
    network, it completes normally or throws, and tells how many requests
    have been sent by then. *)
Definition Async (A : Type) : Type := nat → Completion A * nat.

#[global] Instance Async_ret : MRet Async := λ A a n, (Normal a, n).

#[global] Instance Async_bind : MBind Async := λ A B k c n,
  match c n with
  | (Normal a, n') => k a n'
  | (Throw e, n') => (Throw e, n')
  end.

(** Synchronous code, or a promise that settles without the network (as
    [await res.json()] does), inside [async] code. *)
Definition lift {A} (c : Completion A) : Async A := λ n, (c, n).

(** [try { body } catch (error) { handler }] *)
Definition try_catch {A} (body : Async A) (handler : string → Async A)
  : Async A :=
  λ n, match body n with
       | (Normal a, n') => (Normal a, n')
       | (Throw e, n') => handler e n'
       end.

(** ** Configuration ([config.js]) *)

Record Weights : Type := {
  summary_weightage : R;
  description_weightage : R;
  similarity_threshold : R;
  semantic_weight : R;
  tf_idf_weight : R;
  semantic_threshold : R;
  max_boost : R;
  boost_issuetype_match : R;
  boost_labels_overlap : R;
  boost_components_overlap : R
}.

(** The second [module.exports] of [config.js] is the one in effect. *)
Definition config : Weights := {|
  summary_weightage := 8 / 10;
  description_weightage := 2 / 10;
  similarity_threshold := 5 / 10;
  semantic_weight := 8 / 10;
  tf_idf_weight := 2 / 10;
  semantic_threshold := 6 / 10;
  max_boost := 1 / 10;
  boost_issuetype_match := 5 / 100;
  boost_labels_overlap := 2 / 100;
  boost_components_overlap := 2 / 100
|}.

(** ** Data *)

(** [{ key, score }] *)
Record Scored : Type := { key : string; score : R }.

(** [{ key, text }], one field of one issue as sent to the provider. *)
Module Field.
Record t : Type := mk { key : string; text : string }.
End Field.

(** [{ key, summary, description }] *)
Module Issue.
Record t : Type := mk { key : string; summary : string; description : string }.
End Issue.

Record IssueType : Type := { id : option string }.
Record Component : Type := { name : string }.

(** [{ key, issuetype, labels, components }]; the query's metadata has no
    [key] of its own, so [currentMetadata] carries the issue key there. *)
Module Meta.
Record t : Type := mk {
  key : string;
  issuetype : option IssueType;
  labels : list string;
  components : list Component
}.
End Meta.

(** An issue as the tracker returns it, with the description text already
    extracted ([fields.description?.content?.[0]?.content?.[0]?.text || '']). *)
Module Jira.
Record t : Type := mk {
  key : string;
  summary : string;
  description : string;
  issuetype : option IssueType;
  labels : list string;
  components : list Component
}.
End Jira.

(** [{ key, summary, description, score }] *)
Module Result.
Record t : Type := mk {
  key : string;
  summary : string;
  description : string;
  score : R
}.
End Result.

(** What the resolver returns. *)
Record Output : Type := { current : Issue.t; similar : list Result.t }.

(** The request body sent to the semantic service. *)
Module Payload.
Record t : Type := mk { current : Field.t; others : list Field.t }.
End Payload.

(** A parsed response body: an array whose items are [{ key, score }]
    objects ([None] stands for an item that cannot be destructured, such as
    [null]), or anything that is not an array. *)
Inductive Json : Type :=
| JArray (items : list (option Scored))
| JOther.

(** The response of the service: [res.ok], [res.status], and what
    [await res.text()] and [await res.json()] complete with. *)
Record Response : Type := {
  ok : bool;
  status : nat;
  text : Completion string;
  json : Completion Json
}.

(** [l.find(e => e.key === k)] on scored entries. *)
Definition find_key (k : string) (l : list Scored) : option Scored :=
  List.find (λ e, String.eqb (key e) k) l.

Definition find_meta (k : string) (l : list Meta.t) : option Meta.t :=
  List.find (λ i, String.eqb (Meta.key i) k) l.

Definition find_issue (k : string) (l : list Issue.t) : option Issue.t :=
  List.find (λ i, String.eqb (Issue.key i) k) l.

(** [xs.sort(cmp)]: the sort is stable, so an element moves behind a later
    one only when the comparator is positive on the pair.  Each element is
    inserted in front of the already sorted elements that followed it. *)
Fixpoint sort_insert {A} (cmp : A → A → R) (x : A) (l : list A) : list A :=
  match l with
  | [] => [x]
  | y :: l' =>
      if Rlt_dec 0 (cmp x y) then y :: sort_insert cmp x l' else x :: y :: l'
  end.

Definition Array_sort {A} (cmp : A → A → R) (l : list A) : list A :=
  foldr (sort_insert cmp) [] l.

(** ** Text preprocessing *)

Definition STOP_WORDS : list string :=
  ["the"; "is"; "in"; "at"; "of"; "a"; "and"; "to"; "it"; "for";
   "on"; "this"; "that"; "with"; "as"; "by"; "an"]%string.

(** [\w]: an ASCII letter, a digit or the underscore. *)
Definition is_word_char (c : Ascii.ascii) : bool :=
  let n := Ascii.nat_of_ascii c in
  ((48 <=? n) && (n <=? 57) || (65 <=? n) && (n <=? 90)
   || (97 <=? n) && (n <=? 122) || (n =? 95))%nat.

Definition lower_char (c : Ascii.ascii) : Ascii.ascii :=
  let n := Ascii.nat_of_ascii c in
  if ((65 <=? n) && (n <=? 90))%nat then Ascii.ascii_of_nat (n + 32) else c.

(** [s.toLowerCase()], on the ASCII letters. *)
Fixpoint toLowerCase (s : string) : string :=
  match s with
  | EmptyString => EmptyString
  | String c s' => String (lower_char c) (toLowerCase s')
  end.

(** [s.split(/\W+/)]: [cur] is the piece being read and [sep] tells that
    the previous character belonged to a separator.  A separator at either
    end leaves an empty piece there, and the empty text splits into one
    empty piece. *)
Fixpoint split_W_from (s cur : string) (sep : bool) : list string :=
  match s with
  | EmptyString => [cur]
  | String c s' =>
      if is_word_char c then split_W_from s' (cur +:+ String c EmptyString) false
      else if sep then split_W_from s' EmptyString true
      else cur :: split_W_from s' EmptyString true
  end.

Definition split_W (s : string) : list string := split_W_from s EmptyString false.

Section Engine.

Variable weights : Weights.

(** The tables of [./normalizationDictionary] are not part of the sources:
    they are parameters, and so is the regular-expression engine behind
    [text.replace(new RegExp(`\\b${phrase}\\b`, 'gi'), replacement)]. *)
Variable phraseMap : list (string * string).
Variable normalizationDictionary : gmap string string.
Variable replacePhrase : string → string → string → string.

(** The network: how the service answers the request numbered [n]. *)
Variable network : nat → Payload.t → Completion Response.

Definition SEMANTIC_WEIGHT : R := semantic_weight weights.
Definition TFIDF_WEIGHT : R := tf_idf_weight weights.
Definition SEMANTIC_THRESHOLD : R := semantic_threshold weights.
Definition SUMMARY_WEIGHT : R := summary_weightage weights.
Definition DESCRIPTION_WEIGHT : R := description_weightage weights.
Definition MAX_BOOST : R := max_boost weights.
Definition BOOST_ISSUETYPE_MATCH : R := boost_issuetype_match weights.
Definition BOOST_LABELS_OVERLAP : R := boost_labels_overlap weights.
Definition BOOST_COMPONENTS_OVERLAP : R := boost_components_overlap weights.

Definition normalizeToken (token : string) : string :=
  or_str (normalizationDictionary !! token) token.

Definition applyPhraseMap (text : string) : string :=
  foldl (λ text '(phrase, replacement), replacePhrase phrase replacement text)
    text phraseMap.

Definition tokenize (text : string) : list string :=
  let normalized := toLowerCase (applyPhraseMap text) in
  filter (λ t, t ≠ EmptyString ∧ t ∉ STOP_WORDS)
    (map normalizeToken (split_W normalized)).

(** *** TF-IDF cosine similarity *)

Definition computeDocumentFrequencies (documents : list (list string))
  : gmap string nat :=
  foldl (λ df tokens,
    foldl (λ df token, <[token := (default 0 (df !! token) + 1)%nat]> df)
      df (SetOf tokens))
    ∅ documents.

(** The first loop of [computeTfIdf]: occurrences per token. *)
Definition countTokens (tokens : list string) : gmap string nat :=
  foldl (λ tf t, <[t := (default 0 (tf !! t) + 1)%nat]> tf) ∅ tokens.

Definition computeTfIdf (tokens : list string) (df : gmap string nat)
  (totalDocs : nat) : gmap string R :=
  let tf := countTokens tokens in
  let total := length tokens in
  map_imap (λ t c,
    Some (INR c / INR total
          * ln (INR totalDocs / INR (or_count (df !! t) 1)))) tf.

(** [Object.keys(o)] *)
Definition keys (o : gmap string R) : list string := (map_to_list o).*1.

Definition cosineSimilarity (tf1 tf2 : gmap string R) : R :=
  let terms := SetOf (keys tf1 ++ keys tf2) in
  let '(dot, mag1, mag2) :=
    foldl (λ '(dot, mag1, mag2) term,
      let a := or_num (tf1 !! term) 0 in
      let b := or_num (tf2 !! term) 0 in
      (dot + a * b, mag1 + a * a, mag2 + b * b))
      (0, 0, 0) terms in
  dot / or_num (Some (sqrt mag1 * sqrt mag2)) 1.

(** The TF-IDF vectors of one field over the corpus [all]. *)
Definition tfidfField (field : Issue.t → string) (all : list Issue.t)
  : list (gmap string R) :=
  let docs := map (λ doc, tokenize (field doc)) all in
  let df := computeDocumentFrequencies docs in
  let totalDocs := length all in
  map (λ t, computeTfIdf t df totalDocs) docs.

Definition calculateTFIDFCosineSimilarity (current : Issue.t)
  (others : list Issue.t) : list Scored :=
  let all := current :: others in
  let tfidfSummaries := tfidfField Issue.summary all in
  let tfidfDescriptions := tfidfField Issue.description all in
  let currentSummaryTfIdf := tfidfSummaries !!! 0%nat in
  let currentDescTfIdf := tfidfDescriptions !!! 0%nat in
  imap (λ j doc,
    let i := S j in
    let key := Issue.key doc in
    let summaryScore := cosineSimilarity currentSummaryTfIdf (tfidfSummaries !!! i) in
    let descScore := cosineSimilarity currentDescTfIdf (tfidfDescriptions !!! i) in
    let score := summaryScore * SUMMARY_WEIGHT + descScore * DESCRIPTION_WEIGHT in
    {| key := key; score := score |}) others.

(** *** Semantic similarity through the remote service *)

(** [result.reduce((map, { key, score }) => { map[key] = score; return map }, {})] *)
Definition reduce_scores (result : Json) : Completion (gmap string R) :=
  match result with
  | JOther => Throw "TypeError"
  | JArray items =>
      foldl (λ acc item,
        map ← acc;
        match item with
        | Some e => mret (<[key e := score e]> map)
        | None => Throw "TypeError"
        end) (mret ∅) items
  end.

(** [fetch(url, { method: 'POST', headers, body: JSON.stringify(payload) })] *)
Definition fetch (payload : Payload.t) : Async Response :=
  λ n, (network n payload, S n).

Definition fetchSemanticSimilarity (current : Field.t) (others : list Field.t)
  : Async (gmap string R) :=
  let payload := Payload.mk current others in
  try_catch
    (res ← fetch payload;
     if negb (ok res) then
       _ ← lift (text res); mret ∅
     else
       result ← lift (json res);
       lift (reduce_scores result))
    (λ error, mret ∅).

Definition calculateSemanticSimilarity (current : Issue.t) (others : list Issue.t)
  : Async (list Scored) :=
  let currentSummary := Field.mk (Issue.key current) (Issue.summary current) in
  let currentDescription := Field.mk (Issue.key current) (Issue.description current) in
  let othersSummary := map (λ issue, Field.mk (Issue.key issue) (Issue.summary issue)) others in
  let othersDescription :=
    map (λ issue, Field.mk (Issue.key issue) (Issue.description issue)) others in
  summaryScores ← fetchSemanticSimilarity currentSummary othersSummary;
  descriptionScores ← fetchSemanticSimilarity currentDescription othersDescription;
  mret (map (λ issue,
    let key := Issue.key issue in
    let summaryScore := or_num (summaryScores !! key) 0 in
    let descScore := or_num (descriptionScores !! key) 0 in
    let score := summaryScore * SUMMARY_WEIGHT + descScore * DESCRIPTION_WEIGHT in
    {| key := key; score := score |}) others).

(** *** Score merger *)

Definition mergeSimilarityScores (semanticScored tfidfScored : list Scored)
  : list Scored :=
  map (λ e,
    let semanticScore := score e in
    let tfidfScore := or_num (score <$> find_key (key e) tfidfScored) 0 in
    let score :=
      if Rge_dec semanticScore SEMANTIC_THRESHOLD
      then semanticScore
      else semanticScore * SEMANTIC_WEIGHT + tfidfScore * TFIDF_WEIGHT in
    {| key := key e; score := score |}) semanticScored.

(** *** Metadata booster *)

(** [meta.issuetype?.id] *)
Definition issuetype_id (issuetype : option IssueType) : option string :=
  issuetype ≫= id.

(** The [boost] computed for a candidate whose metadata was found. *)
Definition boostFor (currentMetadata issueMeta : Meta.t) : R :=
  let boost := 0 in
  let boost :=
    if decide (issuetype_id (Meta.issuetype issueMeta)
               = issuetype_id (Meta.issuetype currentMetadata))
    then boost + BOOST_ISSUETYPE_MATCH else boost in
  let currentLabels := SetOf (Meta.labels currentMetadata) in
  let otherLabels := SetOf (Meta.labels issueMeta) in
  let boost :=
    foldl (λ boost label,
      if has otherLabels label then boost + BOOST_LABELS_OVERLAP else boost)
      boost currentLabels in
  let currentComponents := SetOf (map name (Meta.components currentMetadata)) in
  let otherComponents := SetOf (map name (Meta.components issueMeta)) in
  let boost :=
    foldl (λ boost comp,
      if has otherComponents comp then boost + BOOST_COMPONENTS_OVERLAP else boost)
      boost currentComponents in
  Math_min boost MAX_BOOST.

Definition applyBoostingLogic (currentMetadata : Meta.t)
  (othersMetadata : list Meta.t) (baseScored : list Scored) : list Scored :=
  map (λ e,
    match find_meta (key e) othersMetadata with
    | None => {| key := key e; score := score e |}
    | Some issueMeta =>
        {| key := key e; score := score e + boostFor currentMetadata issueMeta |}
    end) baseScored.

(** *** The [fetchIssues] resolver, from step 3 on

    [issueData] and [all] are what the two tracker requests returned. *)

Definition currentOf (issueData : Jira.t) : Issue.t :=
  Issue.mk (Jira.key issueData) (Jira.summary issueData) (Jira.description issueData).

Definition othersOf (all : list Jira.t) : list Issue.t :=
  map (λ issue,
    Issue.mk (Jira.key issue) (Jira.summary issue) (Jira.description issue)) all.

Definition othersMetadataOf (all : list Jira.t) : list Meta.t :=
  map (λ issue,
    Meta.mk (Jira.key issue) (Jira.issuetype issue) (Jira.labels issue)
      (Jira.components issue)) all.

Definition currentMetadataOf (issueData : Jira.t) : Meta.t :=
  Meta.mk (Jira.key issueData) (Jira.issuetype issueData) (Jira.labels issueData)
    (Jira.components issueData).

(** Steps 3 and 4: the scored candidates, in candidate order. *)
Definition similarityScored (issueData : Jira.t) (all : list Jira.t)
  : Async (list Result.t) :=
  let current := currentOf issueData in
  let others := othersOf all in
  let othersMetadata := othersMetadataOf all in
  let currentMetadata := currentMetadataOf issueData in
  semanticScored ← calculateSemanticSimilarity current others;
  let tfidfScored := calculateTFIDFCosineSimilarity current others in
  let semantic_tfidf_weighted_Scored :=
    mergeSimilarityScores semanticScored tfidfScored in
  let boosted_Scored :=
    applyBoostingLogic currentMetadata othersMetadata
      semantic_tfidf_weighted_Scored in
  mret (map (λ e,
    let issue := find_issue (key e) others in
    Result.mk (key e)
      (or_str (Issue.summary <$> issue) EmptyString)
      (or_str (Issue.description <$> issue) EmptyString)
      (Math_min (Math_round (score e * 100) / 100) 1)) boosted_Scored).

(** Step 5: [similarityScored.sort((a, b) => b.score - a.score)] and
    [slice(0, 10)]. *)
Definition fetchIssues (issueData : Jira.t) (all : list Jira.t)
  : Async Output :=
  scored ← similarityScored issueData all;
  let sorted :=
    Array_sort (λ a b, Result.score b - Result.score a) scored in
  mret {| current := currentOf issueData; similar := take 10 sorted |}.

End Engine.

(** ** Reference definitions

    The quantities below follow the wording of the specification; the
    theorems compare them with what the code computes. *)

(** Number of distinct values present in both collections. *)
Definition overlap (xs ys : list string) : nat :=
  size ((list_to_set xs : gset string) ∩ list_to_set ys).

(** Rounding to two decimal places. *)
Definition roundTo2 (x : R) : R := Math_round (x * 100) / 100.

(** Every configured weight is non-negative. *)
Definition weights_nonneg (w : Weights) : Prop :=
  0 <= summary_weightage w ∧ 0 <= description_weightage w
  ∧ 0 <= similarity_threshold w ∧ 0 <= semantic_weight w
  ∧ 0 <= tf_idf_weight w ∧ 0 <= semantic_threshold w ∧ 0 <= max_boost w
  ∧ 0 <= boost_issuetype_match w ∧ 0 <= boost_labels_overlap w
  ∧ 0 <= boost_components_overlap w.

(** Occurrences of a token in a token sequence. *)
Definition occurrences (token : string) (tokens : list string) : nat :=
  length (filter (λ t, t = token) tokens).

(** Number of documents of the corpus that contain the token. *)
Definition documentsWith (token : string) (documents : list (list string)) : nat :=
  length (filter (λ tokens, token ∈ tokens) documents).

Definition Rsum (l : list R) : R := foldr Rplus 0 l.
Arguments Rsum : simpl never.

(** [dot(a, b)] and the magnitude of a vector, over the vector's own
    entries. *)
Definition dotProduct (a b : gmap string R) : R :=
  Rsum (map (λ '(k, v), v * default 0 (b !! k)) (map_to_list a)).

Definition magnitude (a : gmap string R) : R :=
  sqrt (Rsum (map (λ '(k, v), v * v) (map_to_list a))).

Section Reference.

Variable weights : Weights.
Variable phraseMap : list (string * string).
Variable normalizationDictionary : gmap string string.
Variable replacePhrase : string → string → string → string.

(** The TF-IDF vector of one field of [doc] within the corpus [all]. *)
Definition fieldVector (field : Issue.t → string) (all : list Issue.t)
  (doc : Issue.t) : gmap string R :=
  computeTfIdf
    (tokenize phraseMap normalizationDictionary replacePhrase (field doc))
    (computeDocumentFrequencies
       (map (λ d, tokenize phraseMap normalizationDictionary replacePhrase (field d))
          all))
    (length all).

(** The cosines of the two fields between the query and a candidate; the
    corpus is the query followed by the candidates. *)
Definition summaryCosine (current : Issue.t) (others : list Issue.t)
  (candidate : Issue.t) : R :=
  cosineSimilarity (fieldVector Issue.summary (current :: others) current)
    (fieldVector Issue.summary (current :: others) candidate).

Definition descriptionCosine (current : Issue.t) (others : list Issue.t)
  (candidate : Issue.t) : R :=
  cosineSimilarity (fieldVector Issue.description (current :: others) current)
    (fieldVector Issue.description (current :: others) candidate).

(** The boost accumulated for a query/candidate metadata pair, before the
    cap. *)
Definition accumulatedBoost (query candidate : Meta.t) : R :=
  (if decide (issuetype_id (Meta.issuetype candidate)
              = issuetype_id (Meta.issuetype query))
   then BOOST_ISSUETYPE_MATCH weights else 0)
  + INR (overlap (Meta.labels query) (Meta.labels candidate))
    * BOOST_LABELS_OVERLAP weights
  + INR (overlap (map name (Meta.components query))
           (map name (Meta.components candidate)))
    * BOOST_COMPONENTS_OVERLAP weights.

(** The boost of the candidate with key [k]: capped when its metadata entry
    exists, [0] when it is missing. *)
Definition candidateBoost (query : Meta.t) (othersMetadata : list Meta.t)
  (k : string) : R :=
  match find_meta k othersMetadata with
  | Some candidate => Rmin (accumulatedBoost query candidate) (MAX_BOOST weights)
  | None => 0
  end.

End Reference.

(** The ways in which a call to the semantic provider fails: the request
    is rejected, the response is not a success, or its body cannot be read
    as an array of [{ key, score }] items. *)
Inductive ProviderFailure : Completion Response → Prop :=
| request_rejected (error : string) :
    ProviderFailure (Throw error)
| non_success (res : Response) :
    ok res = false → ProviderFailure (Normal res)
| unreadable_body (res : Response) (error : string) :
    ok res = true → json res = Throw error → ProviderFailure (Normal res)
| body_not_an_array (res : Response) :
    ok res = true → json res = Normal JOther → ProviderFailure (Normal res)
| item_not_an_object (res : Response) (items : list (option Scored)) :
    ok res = true → json res = Normal (JArray items) → None ∈ items →
    ProviderFailure (Normal res).

(** ** Example data *)

(** The replacement engine of an empty phrase map: nothing is rewritten. *)
Definition no_phrases : string → string → string → string :=
  λ _ _ text, text.

(** A provider that cannot be reached, and one that answers. *)
Definition provider_down : nat → Payload.t → Completion Response :=
  λ _ _, Throw "ECONNREFUSED".

Definition provider_up : nat → Payload.t → Completion Response :=
  λ _ _, Normal {|
    ok := true;
    status := 200;
    text := Normal EmptyString;
    json := Normal (JArray [Some {| key := "PRJ-2"; score := 9 / 10 |};
                            Some {| key := "PRJ-3"; score := 4 / 10 |}])
  |}.

Definition provider_scores : gmap string R :=
  <["PRJ-3" := 4 / 10]> (<["PRJ-2" := 9 / 10]> ∅).

Definition queryIssue : Jira.t :=
  Jira.mk "PRJ-1" "Login fails on the mobile" "crash on start"
    (Some {| id := Some "10001"%string |}) ["ui"; "mobile"; "ui"]%string
    [{| name := "auth" |}].

Definition candidateIssues : list Jira.t :=
  [Jira.mk "PRJ-2" "login fails on mobile app" EmptyString
     (Some {| id := Some "10001"%string |}) ["mobile"; "ui"; "web"]%string
     [{| name := "auth" |}];
   Jira.mk "PRJ-3" "payment page is slow" "checkout takes long"
     None [] []].

(** ** Further definitions

    Predicates and models used by the properties of the code around the
    scoring pipeline. *)

(** Every character of the text satisfies [P]. *)
Fixpoint string_forall (P : Ascii.ascii → bool) (s : string) : bool :=
  match s with
  | EmptyString => true
  | String c s' => P c && string_forall P s'
  end.

(** An ASCII capital letter. *)
Definition is_upper_char (c : Ascii.ascii) : bool :=
  let n := Ascii.nat_of_ascii c in ((65 <=? n) && (n <=? 90))%nat.

(** A character of the ASCII range.  On a text of such characters
    [toLowerCase] and [\W] are what [String.prototype.toLowerCase] and the
    regular expression do; beyond it the built-in lower-casing also turns
    some characters that are no word characters into ASCII letters. *)
Definition is_ascii_char (c : Ascii.ascii) : bool :=
  (Ascii.nat_of_ascii c <? 128)%nat.

(** The property names of [Object.prototype].  A dictionary written as an
    object literal answers a lookup of one of them with the inherited
    property, which is no string. *)
Definition Object_prototype_keys : list string :=
  ["constructor"; "__defineGetter__"; "__defineSetter__"; "hasOwnProperty";
   "__lookupGetter__"; "__lookupSetter__"; "isPrototypeOf";
   "propertyIsEnumerable"; "toString"; "valueOf"; "__proto__";
   "toLocaleString"]%string.

(** An answer in which PRJ-2 occurs twice. *)
Definition provider_repeats : nat → Payload.t → Completion Response :=
  λ _ _, Normal {|
    ok := true;
    status := 200;
    text := Normal EmptyString;
    json := Normal (JArray (map Some [{| key := "PRJ-2"; score := 9 / 10 |};
                                      {| key := "PRJ-2"; score := 4 / 10 |}]))
  |}.

(** *** Retrieval of the candidates (step 2 of the resolver)

    [search startAt] is what the tracker answers to the request
    [/rest/api/3/search?jql=...&startAt=${startAt}&maxResults=50] once its
    body is parsed: a page [{ total, issues }], or an exception.  The
    requests of one run have different [startAt], so a function of
    [startAt] covers every behaviour of the tracker. *)
Record Page : Type := { total : nat; issues : list Jira.t }.

(** [do { ... } while (startAt < total)], with [fuel] bounding the number
    of iterations; [None] is a loop that has not finished in [fuel]
    iterations. *)
Fixpoint searchLoop (search : nat → Completion Page) (fuel startAt : nat)
  (all : list Jira.t) : option (Completion (list Jira.t)) :=
  match fuel with
  | O => None
  | S fuel' =>
      match search startAt with
      | Throw error => Some (Throw error)
      | Normal sd =>
          let total := total sd in
          let all := all ++ issues sd in
          let startAt := (startAt + 50)%nat in
          if (startAt <? total)%nat then searchLoop search fuel' startAt all
          else Some (Normal all)
      end
  end.

(** [let startAt = 0, all = [], total = 0; do { ... } while (...)] *)
Definition searchAll (search : nat → Completion Page) (fuel : nat)
  : option (Completion (list Jira.t)) :=
  searchLoop search fuel 0 [].

(** The issues of the first [k] pages of fifty. *)
Definition firstPages (pages : nat → Page) (k : nat) : list Jira.t :=
  concat (map (λ i, issues (pages (50 * i)%nat)) (seq 0 k)).

(** The number of pages of fifty that hold [total] issues, the first page
    being requested in any case. *)
Definition pageCount (total : nat) : nat := Nat.max 1 ((total + 49) / 50).

(** A tracker with 120 issues that serves them fifty at a time. *)
Definition tracker_120 : nat → Page :=
  λ startAt, {| total := 120;
                issues := replicate (Nat.min 50 (120 - startAt))
                            (Jira.mk "PRJ-9" "summary" EmptyString None [] []) |}.

(** * Properties *)

(** ** JavaScript idioms *)

Lemma or_num_Some (v : R) : or_num (Some v) 0 = v.
Proof. unfold or_num. case_decide; congruence. Qed.

Lemma or_num_nonzero (v d : R) : d ≠ 0 → or_num (Some v) d ≠ 0.
Proof. intros Hd. unfold or_num. case_decide; congruence. Qed.


Lemma or_count_max (x : option nat) : or_count x 1 = Nat.max (default 0%nat x) 1.
Proof. destruct x as [[|n]|]; simpl; lia. Qed.

Lemma find_key_Some (k : string) (l : list Scored) (e : Scored) :
  find_key k l = Some e → e ∈ l ∧ key e = k.
Proof.
  unfold find_key. intros H. apply List.find_some in H as [Hin Heq].
  split; [by apply list_elem_of_In | by apply String.eqb_eq].
Qed.

(** [find] by key misses exactly when no entry carries the key. *)
Lemma find_by_key_None {A} (f : A → string) (k : string) (l : list A) :
  List.find (λ x, String.eqb (f x) k) l = None ↔ k ∉ map f l.
Proof.
  induction l as [|x l IH]; simpl.
  - split; [intros _; apply not_elem_of_nil | done].
  - destruct (String.eqb (f x) k) eqn:E.
    + apply String.eqb_eq in E. split; [done | intros []; subst; left].
    + apply String.eqb_neq in E. rewrite IH, not_elem_of_cons.
      split; [intros ?; split; [congruence | done] | by intros []].
Qed.

Lemma find_key_None (k : string) (l : list Scored) :
  find_key k l = None ↔ k ∉ map key l.
Proof. apply find_by_key_None. Qed.

Lemma find_meta_None (k : string) (l : list Meta.t) :
  find_meta k l = None ↔ k ∉ map Meta.key l.
Proof. apply find_by_key_None. Qed.

(** [find_key] returns the first entry that carries the key. *)
Lemma find_key_first (k : string) (l : list Scored) (e : Scored) :
  find_key k l = Some e ↔
  ∃ j, l !! j = Some e ∧ key e = k ∧ ∀ j' x, (j' < j)%nat → l !! j' = Some x → key x ≠ k.
Proof.
  unfold find_key. revert e. induction l as [|x l IH]; intros e; simpl.
  - split; [done | intros (j & Hj & _); by rewrite lookup_nil in Hj].
  - destruct (String.eqb (key x) k) eqn:E.
    + apply String.eqb_eq in E. split.
      * intros [= <-]. exists 0%nat. split_and!; [done | done |]. intros; lia.
      * intros ([|j] & Hj & He & Hfirst); [by simplify_eq/= |].
        exfalso. by apply (Hfirst 0%nat x); [lia | |].
    + apply String.eqb_neq in E. rewrite IH. split.
      * intros (j & Hj & He & Hfirst). exists (S j). split_and!; [done | done |].
        intros [|j'] y Hlt Hy; simplify_eq/=; [done |].
        eapply Hfirst; [|done]. lia.
      * intros ([|j] & Hj & He & Hfirst); simplify_eq/=.
        exists j. split_and!; [done | done |].
        intros j' y Hlt Hy. apply (Hfirst (S j') y); [lia | done].
Qed.

Section MergerProperties.

Variable weights : Weights.

Lemma mergeSimilarityScores_lookup (semanticScored tfidfScored : list Scored)
  (i : nat) (e : Scored) :
  semanticScored !! i = Some e →
  mergeSimilarityScores weights semanticScored tfidfScored !! i =
  Some {| key := key e;
          score := if Rge_dec (score e) (SEMANTIC_THRESHOLD weights)
                   then score e
                   else score e * SEMANTIC_WEIGHT weights
                        + or_num (score <$> find_key (key e) tfidfScored) 0
                          * TFIDF_WEIGHT weights |}.
Proof.
  intros He. unfold mergeSimilarityScores. by rewrite list_lookup_fmap, He.
Qed.


(** C1.  The merge step, candidate by candidate: at or above
    [SEMANTIC_THRESHOLD] (the comparison is inclusive) the semantic score is
    returned unchanged; below it the result is
    [semanticScore * SEMANTIC_WEIGHT + lexicalScore * TFIDF_WEIGHT], where
    the lexical score is that of the first TF-IDF entry with the
    candidate's key. *)
Theorem merge_threshold_gate (semanticScored tfidfScored : list Scored)
  (i : nat) (e : Scored) :
  semanticScored !! i = Some e →
  ∃ out,
    mergeSimilarityScores weights semanticScored tfidfScored !! i = Some out
    ∧ key out = key e
    ∧ (score e >= SEMANTIC_THRESHOLD weights → score out = score e)
    ∧ (score e = SEMANTIC_THRESHOLD weights → score out = score e)
    ∧ (score e < SEMANTIC_THRESHOLD weights →
       ∀ j lexical,
         tfidfScored !! j = Some lexical → key lexical = key e →
         (∀ j' x, (j' < j)%nat → tfidfScored !! j' = Some x → key x ≠ key e) →
         score out = score e * SEMANTIC_WEIGHT weights
                     + score lexical * TFIDF_WEIGHT weights).
Proof.
  intros He. eexists. split; [by apply mergeSimilarityScores_lookup |].
  simpl. split; [done |].
  destruct (Rge_dec _ _) as [Hge | Hlt]; split_and!; try done; try lra.
  intros _ j lexical Hj Hkey Hfirst.
  assert (Hfind : find_key (key e) tfidfScored = Some lexical)
    by (apply find_key_first; eauto).
  rewrite Hfind. change (score <$> Some lexical) with (Some (score lexical)).
  by rewrite or_num_Some.
Qed.

(** C10.  The merged list follows the semantic list entry by entry: same
    length and the same key at every position, so a key that occurs only in
    the TF-IDF list yields no entry, and an entry whose key the TF-IDF list
    lacks is blended with the lexical score 0. *)
Theorem merge_follows_semantic_list (semanticScored tfidfScored : list Scored) :
  length (mergeSimilarityScores weights semanticScored tfidfScored)
    = length semanticScored
  ∧ map key (mergeSimilarityScores weights semanticScored tfidfScored)
    = map key semanticScored
  ∧ (∀ t, t ∈ tfidfScored → key t ∉ map key semanticScored →
       key t ∉ map key (mergeSimilarityScores weights semanticScored tfidfScored))
  ∧ (∀ i e, semanticScored !! i = Some e → key e ∉ map key tfidfScored →
       mergeSimilarityScores weights semanticScored tfidfScored !! i =
       Some {| key := key e;
               score := if Rge_dec (score e) (SEMANTIC_THRESHOLD weights)
                        then score e
                        else score e * SEMANTIC_WEIGHT weights
                             + 0 * TFIDF_WEIGHT weights |}).
Proof.
  assert (Hkeys : map key (mergeSimilarityScores weights semanticScored tfidfScored)
                  = map key semanticScored).
  { unfold mergeSimilarityScores. rewrite map_map. by apply map_ext. }
  split_and!.
  - unfold mergeSimilarityScores. by rewrite length_map.
  - done.
  - intros t _ Ht. by rewrite Hkeys.
  - intros i e He Hno. rewrite (mergeSimilarityScores_lookup _ _ _ _ He).
    apply find_key_None in Hno. by rewrite Hno.
Qed.

End MergerProperties.

(** ** Sets *)

Lemma elem_of_SetOf {A} `{EqDecision A} (l : list A) (x : A) :
  x ∈ SetOf l ↔ x ∈ l.
Proof.
  induction l as [|a l IH]; simpl; [done |].
  rewrite !elem_of_cons, list_elem_of_filter, IH.
  destruct (decide (x = a)); tauto.
Qed.

Lemma NoDup_SetOf {A} `{EqDecision A} (l : list A) : NoDup (SetOf l).
Proof.
  induction l as [|a l IH]; simpl; [constructor |].
  constructor; [| by apply NoDup_filter].
  rewrite list_elem_of_filter. by intros [? _].
Qed.

(** The two sets share exactly [overlap] elements. *)
Lemma overlap_SetOf (xs ys : list string) :
  length (filter (λ x, x ∈ SetOf ys) (SetOf xs)) = overlap xs ys.
Proof.
  unfold overlap.
  rewrite <- (size_list_to_set (C:=gset string)
                (filter (λ x, x ∈ SetOf ys) (SetOf xs)))
    by apply NoDup_filter, NoDup_SetOf.
  f_equal. apply set_eq. intros x.
  rewrite elem_of_list_to_set, list_elem_of_filter, !elem_of_SetOf.
  rewrite elem_of_intersection, !elem_of_list_to_set. tauto.
Qed.

(** A loop that adds [B] for every element found in [other]. *)
Lemma boost_loop (B : R) (other cur : list string) (boost : R) :
  foldl (λ boost x, if has other x then boost + B else boost) boost cur
  = boost + INR (length (filter (λ x, x ∈ other) cur)) * B.
Proof.
  revert boost. induction cur as [|x cur IH]; intros boost; simpl.
  - lra.
  - rewrite IH. unfold has.
    destruct (decide (x ∈ other)) as [Hin | Hout].
    + rewrite bool_decide_eq_true_2, filter_cons_True by done.
      rewrite length_cons, S_INR. lra.
    + by rewrite bool_decide_eq_false_2, filter_cons_False by done.
Qed.

Section BoosterProperties.

Variable weights : Weights.

Lemma boostFor_capped (currentMetadata issueMeta : Meta.t) :
  boostFor weights currentMetadata issueMeta
  = Rmin (accumulatedBoost weights currentMetadata issueMeta) (MAX_BOOST weights).
Proof.
  unfold boostFor, accumulatedBoost, Math_min.
  rewrite !boost_loop, !overlap_SetOf. f_equal.
  case_decide; lra.
Qed.

Lemma applyBoostingLogic_eq (currentMetadata : Meta.t)
  (othersMetadata : list Meta.t) (baseScored : list Scored) :
  applyBoostingLogic weights currentMetadata othersMetadata baseScored
  = map (λ e, {| key := key e;
                 score := score e
                          + candidateBoost weights currentMetadata
                              othersMetadata (key e) |}) baseScored.
Proof.
  unfold applyBoostingLogic, candidateBoost. apply map_ext. intros e.
  destruct (find_meta _ _); [by rewrite boostFor_capped |].
  f_equal. lra.
Qed.

Lemma accumulatedBoost_nonneg (query candidate : Meta.t) :
  weights_nonneg weights → 0 <= accumulatedBoost weights query candidate.
Proof.
  intros (_ & _ & _ & _ & _ & _ & _ & Hi & Hl & Hc). unfold accumulatedBoost.
  unfold BOOST_ISSUETYPE_MATCH, BOOST_LABELS_OVERLAP, BOOST_COMPONENTS_OVERLAP.
  pose proof (pos_INR (overlap (Meta.labels query) (Meta.labels candidate))).
  pose proof (pos_INR (overlap (map name (Meta.components query))
                         (map name (Meta.components candidate)))).
  case_decide; nra.
Qed.

Lemma candidateBoost_nonneg (query : Meta.t) (othersMetadata : list Meta.t)
  (k : string) :
  weights_nonneg weights → 0 <= candidateBoost weights query othersMetadata k.
Proof.
  intros Hw. unfold candidateBoost. destruct (find_meta _ _); [| lra].
  apply Rmin_glb; [by apply accumulatedBoost_nonneg |].
  unfold MAX_BOOST. apply Hw.
Qed.

(** C3.  The boost of a candidate is [min(accumulated, MAX_BOOST)], where
    the accumulation adds [BOOST_ISSUETYPE_MATCH] when the issue type ids
    are equal, [BOOST_LABELS_OVERLAP] once per distinct label present in
    both label sets and [BOOST_COMPONENTS_OVERLAP] once per distinct shared
    component name; a candidate without a metadata entry keeps its score
    (boost 0).  [applyBoostingLogic] is a total function: no error is
    raised on any input. *)
Theorem boost_is_capped_overlap_count (currentMetadata : Meta.t)
  (othersMetadata : list Meta.t) (baseScored : list Scored) :
  (∀ issueMeta,
     boostFor weights currentMetadata issueMeta
     = Rmin (accumulatedBoost weights currentMetadata issueMeta)
         (MAX_BOOST weights))
  ∧ applyBoostingLogic weights currentMetadata othersMetadata baseScored
    = map (λ e, {| key := key e;
                   score := score e
                            + candidateBoost weights currentMetadata
                                othersMetadata (key e) |}) baseScored
  ∧ (∀ e, e ∈ baseScored → key e ∉ map Meta.key othersMetadata →
       candidateBoost weights currentMetadata othersMetadata (key e) = 0
       ∧ e ∈ applyBoostingLogic weights currentMetadata othersMetadata baseScored).
Proof.
  split_and!; [apply boostFor_capped | apply applyBoostingLogic_eq |].
  intros e He Hno.
  assert (Hnone : find_meta (key e) othersMetadata = None)
    by by apply find_meta_None.
  split; [unfold candidateBoost; by rewrite Hnone |].
  unfold applyBoostingLogic. apply list_elem_of_fmap. exists e.
  rewrite Hnone. by destruct e.
Qed.

End BoosterProperties.

(** ** Semantic adapter *)

(** Once the accumulator of the [reduce] holds an exception, it stays. *)
Lemma reduce_after_Throw (error : string) (items : list (option Scored)) :
  foldl (λ acc item,
    map ← acc;
    match item with
    | Some e => mret (<[key e := score e]> map)
    | None => Throw "TypeError"
    end) (Throw error : Completion (gmap string R)) items = Throw error.
Proof. induction items as [|item items IH]; simpl; [done | apply IH]. Qed.

Lemma reduce_scores_bad_item (items : list (option Scored)) :
  None ∈ items → ∃ error, reduce_scores (JArray items) = Throw error.
Proof.
  unfold reduce_scores. generalize (mret ∅ : Completion (gmap string R)).
  induction items as [|item items IH]; intros acc Hin.
  - by apply elem_of_nil in Hin.
  - simpl. destruct acc as [map | error]; [| eexists; apply reduce_after_Throw].
    destruct item as [e |]; simpl.
    + apply IH. by apply elem_of_cons in Hin as [? | ?].
    + eexists. apply reduce_after_Throw.
Qed.

(** A well-formed body is folded into the map of its scores. *)
Lemma reduce_scores_entries (entries : list Scored) :
  reduce_scores (JArray (map Some entries))
  = Normal (foldl (λ map e, <[key e := score e]> map) ∅ entries).
Proof.
  unfold reduce_scores. change (mret ∅) with (Normal (∅ : gmap string R)).
  generalize (∅ : gmap string R).
  induction entries as [|e entries IH]; intros map; simpl; [done | apply IH].
Qed.

Section AdapterProperties.

Variable weights : Weights.
Variable network : nat → Payload.t → Completion Response.

(** The body of the [try] block, from the outcome of the request on. *)
Lemma fetchSemanticSimilarity_unfold (current : Field.t) (others : list Field.t)
  (n : nat) :
  fetchSemanticSimilarity network current others n
  = match network n (Payload.mk current others) with
    | Throw _ => (Normal ∅, S n)
    | Normal res =>
        if ok res then
          match json res with
          | Throw _ => (Normal ∅, S n)
          | Normal result =>
              match reduce_scores result with
              | Throw _ => (Normal ∅, S n)
              | Normal map => (Normal map, S n)
              end
          end
        else (Normal ∅, S n)
    end.
Proof.
  unfold fetchSemanticSimilarity, try_catch, fetch, mbind, Async_bind, lift.
  destruct (network n _) as [res | error]; [| done].
  destruct (ok res); simpl.
  - destruct (json res) as [result | error]; [| done].
    by destruct (reduce_scores result).
  - by destruct (text res).
Qed.

(** The adapter sends one request and always returns a map. *)
Lemma fetchSemanticSimilarity_total (current : Field.t) (others : list Field.t)
  (n : nat) :
  ∃ m, fetchSemanticSimilarity network current others n = (Normal m, S n).
Proof.
  rewrite fetchSemanticSimilarity_unfold.
  destruct (network n _) as [res | error]; [| eauto].
  destruct (ok res); [| eauto].
  destruct (json res) as [result | error]; [| eauto].
  destruct (reduce_scores result); eauto.
Qed.

Lemma fetchSemanticSimilarity_failure (current : Field.t) (others : list Field.t)
  (n : nat) :
  ProviderFailure (network n (Payload.mk current others)) →
  fetchSemanticSimilarity network current others n = (Normal ∅, S n).
Proof.
  rewrite fetchSemanticSimilarity_unfold. intros Hfail.
  inversion Hfail as [error Hf | res Hok Hf | res error Hok Hjson Hf
                     | res Hok Hjson Hf | res items Hok Hjson Hbad Hf];
    [done | by rewrite Hok | by rewrite Hok, Hjson ..|].
  rewrite Hok, Hjson.
  by destruct (reduce_scores_bad_item items Hbad) as [error ->].
Qed.

Lemma fetchSemanticSimilarity_success (current : Field.t) (others : list Field.t)
  (n : nat) (res : Response) (entries : list Scored) :
  network n (Payload.mk current others) = Normal res →
  ok res = true →
  json res = Normal (JArray (map Some entries)) →
  fetchSemanticSimilarity network current others n
  = (Normal (foldl (λ map e, <[key e := score e]> map) ∅ entries), S n).
Proof.
  intros Hres Hok Hjson.
  by rewrite fetchSemanticSimilarity_unfold, Hres, Hok, Hjson,
    reduce_scores_entries.
Qed.

(** The aggregation over the two score maps the adapter returned; the
    summary request is sent first. *)
Lemma calculateSemanticSimilarity_eq (current : Issue.t) (others : list Issue.t)
  (n : nat) (summaryScores descriptionScores : gmap string R) :
  fetchSemanticSimilarity network
    (Field.mk (Issue.key current) (Issue.summary current))
    (map (λ issue, Field.mk (Issue.key issue) (Issue.summary issue)) others) n
  = (Normal summaryScores, S n) →
  fetchSemanticSimilarity network
    (Field.mk (Issue.key current) (Issue.description current))
    (map (λ issue, Field.mk (Issue.key issue) (Issue.description issue)) others)
    (S n)
  = (Normal descriptionScores, S (S n)) →
  calculateSemanticSimilarity weights network current others n
  = (Normal (map (λ issue,
       {| key := Issue.key issue;
          score := or_num (summaryScores !! Issue.key issue) 0
                     * SUMMARY_WEIGHT weights
                   + or_num (descriptionScores !! Issue.key issue) 0
                     * DESCRIPTION_WEIGHT weights |}) others), S (S n)).
Proof.
  intros Hs Hd. unfold calculateSemanticSimilarity, mbind, Async_bind.
  by rewrite Hs, Hd.
Qed.

End AdapterProperties.

(** ** Counting loops *)

(** The loop [for (const t of l) m[t] = (m[t] || 0) + 1] adds to every
    counter the occurrences of its key. *)
Lemma count_loop_default (l : list string) (m : gmap string nat) (t : string) :
  default 0%nat
    (foldl (λ m t, <[t := (default 0 (m !! t) + 1)%nat]> m) m l !! t)
  = (default 0 (m !! t) + occurrences t l)%nat.
Proof.
  unfold occurrences. revert m. induction l as [|x l IH]; intros m; simpl.
  - lia.
  - rewrite IH. destruct (decide (x = t)) as [-> | Hne].
    + rewrite lookup_insert_eq, filter_cons_True by done. simpl. lia.
    + by rewrite lookup_insert_ne, filter_cons_False by done.
Qed.

Lemma count_loop_is_Some (l : list string) (m : gmap string nat) (t : string) :
  is_Some (foldl (λ m t, <[t := (default 0 (m !! t) + 1)%nat]> m) m l !! t)
  ↔ is_Some (m !! t) ∨ t ∈ l.
Proof.
  revert m. induction l as [|x l IH]; intros m; simpl.
  - rewrite elem_of_nil. tauto.
  - rewrite IH, elem_of_cons. destruct (decide (x = t)) as [-> | Hne].
    + rewrite lookup_insert_eq. split; [auto | intros _; left; eauto].
    + rewrite lookup_insert_ne by done.
      split; [tauto | intros [? | [? | ?]]; [tauto | congruence | tauto]].
Qed.

Lemma occurrences_NoDup (t : string) (l : list string) :
  NoDup l → occurrences t l = if decide (t ∈ l) then 1%nat else 0%nat.
Proof.
  unfold occurrences. induction 1 as [|x l Hx Hl IH].
  - by rewrite decide_False by apply not_elem_of_nil.
  - destruct (decide (x = t)) as [-> | Hne].
    + rewrite filter_cons_True, length_cons, IH by done.
      rewrite decide_False by done. by rewrite decide_True by left.
    + rewrite filter_cons_False, IH by done.
      destruct (decide (t ∈ l)).
      * by rewrite decide_True by by right.
      * rewrite decide_False; [done |].
        rewrite elem_of_cons. intros [? | ?]; by subst.
Qed.

Lemma countTokens_lookup (tokens : list string) (t : string) :
  countTokens tokens !! t
  = if decide (t ∈ tokens) then Some (occurrences t tokens) else None.
Proof.
  pose proof (count_loop_default tokens ∅ t) as Hd.
  pose proof (count_loop_is_Some tokens ∅ t) as Hs.
  rewrite lookup_empty in Hd, Hs. fold (countTokens tokens) in Hd, Hs.
  destruct (decide (t ∈ tokens)) as [Hin | Hout].
  - destruct (countTokens tokens !! t) as [c |] eqn:E.
    + simpl in Hd. by rewrite Hd.
    + exfalso. destruct Hs as [_ Hs]. by destruct Hs as [? ?]; [right |].
  - apply eq_None_not_Some. rewrite Hs. intros [[? ?] | ?]; done.
Qed.

(** Document frequencies: each document counts once for each of its
    distinct tokens. *)
Lemma computeDocumentFrequencies_loop (documents : list (list string))
  (df : gmap string nat) (t : string) :
  default 0%nat
    (foldl (λ df tokens,
       foldl (λ df token, <[token := (default 0 (df !! token) + 1)%nat]> df)
         df (SetOf tokens)) df documents !! t)
  = (default 0 (df !! t) + documentsWith t documents)%nat.
Proof.
  unfold documentsWith. revert df.
  induction documents as [|tokens documents IH]; intros df; simpl.
  - lia.
  - rewrite IH, count_loop_default, occurrences_NoDup by apply NoDup_SetOf.
    destruct (decide (t ∈ tokens)) as [Hin | Hout].
    + rewrite decide_True by by apply elem_of_SetOf.
      rewrite filter_cons_True by done. simpl. lia.
    + rewrite decide_False by by rewrite elem_of_SetOf.
      rewrite filter_cons_False by done. lia.
Qed.

Lemma computeDocumentFrequencies_lookup (documents : list (list string)) (t : string) :
  default 0%nat (computeDocumentFrequencies documents !! t)
  = documentsWith t documents.
Proof.
  unfold computeDocumentFrequencies.
  by rewrite computeDocumentFrequencies_loop, lookup_empty.
Qed.

Lemma documentsWith_bounds (t : string) (documents : list (list string))
  (tokens : list string) :
  tokens ∈ documents → t ∈ tokens →
  (1 ≤ documentsWith t documents ≤ length documents)%nat.
Proof.
  unfold documentsWith. intros Hdoc Ht. split; [| apply length_filter].
  assert (Hin : tokens ∈ filter (λ tokens, t ∈ tokens) documents)
    by by apply list_elem_of_filter.
  destruct (filter _ documents); [by apply elem_of_nil in Hin | simpl; lia].
Qed.

(** ** TF-IDF weights *)

Lemma computeTfIdf_lookup (tokens : list string) (df : gmap string nat)
  (totalDocs : nat) (t : string) :
  computeTfIdf tokens df totalDocs !! t
  = if decide (t ∈ tokens)
    then Some (INR (occurrences t tokens) / INR (length tokens)
               * ln (INR totalDocs / INR (or_count (df !! t) 1)))
    else None.
Proof.
  unfold computeTfIdf. rewrite map_lookup_imap, countTokens_lookup.
  by destruct (decide (t ∈ tokens)).
Qed.

Lemma computeTfIdf_nil (df : gmap string nat) (totalDocs : nat) :
  computeTfIdf [] df totalDocs = ∅.
Proof. apply map_eq. intros t. by rewrite computeTfIdf_lookup, lookup_empty. Qed.

(** C8.  For a non-empty token list, [computeTfIdf] gives every token of
    the list the weight
    [(occurrences / length) * ln (totalDocs / max (df[token], 1))] and has
    no other entry; a token that [df] lacks is weighted as if [df] were 1;
    neither division is by zero. *)
Theorem computeTfIdf_weight (tokens : list string) (df : gmap string nat)
  (totalDocs : nat) :
  tokens ≠ [] →
  (∀ t, t ∈ tokens →
     computeTfIdf tokens df totalDocs !! t
     = Some (INR (occurrences t tokens) / INR (length tokens)
             * ln (INR totalDocs / INR (Nat.max (default 0%nat (df !! t)) 1)))
     ∧ (df !! t = None →
        computeTfIdf tokens df totalDocs !! t
        = Some (INR (occurrences t tokens) / INR (length tokens)
                * ln (INR totalDocs / INR 1))))
  ∧ (∀ t, t ∉ tokens → computeTfIdf tokens df totalDocs !! t = None)
  ∧ INR (length tokens) ≠ 0
  ∧ (∀ t, INR (Nat.max (default 0%nat (df !! t)) 1) ≠ 0).
Proof.
  intros Hne. split_and!.
  - intros t Ht. rewrite computeTfIdf_lookup, decide_True by done.
    rewrite or_count_max. split; [done |]. by intros ->.
  - intros t Ht. by rewrite computeTfIdf_lookup, decide_False.
  - apply not_0_INR. by destruct tokens.
  - intros t. apply not_0_INR. lia.
Qed.

(** ** Sums *)

Lemma or_num_default (x : option R) : or_num x 0 = default 0 x.
Proof. destruct x; [apply or_num_Some | done]. Qed.

Lemma Rsum_nil : Rsum [] = 0.
Proof. reflexivity. Qed.

Lemma Rsum_cons (x : R) (l : list R) : Rsum (x :: l) = x + Rsum l.
Proof. reflexivity. Qed.

Lemma Rsum_Permutation (l k : list R) : l ≡ₚ k → Rsum l = Rsum k.
Proof.
  induction 1 as [| x l k _ IH | x y l | l k m _ IH1 _ IH2];
    rewrite ?Rsum_cons; [done | lra | lra | congruence].
Qed.

Lemma Rsum_nonneg (l : list R) : Forall (λ x, 0 <= x) l → 0 <= Rsum l.
Proof. induction 1; rewrite ?Rsum_nil, ?Rsum_cons; lra. Qed.

Lemma Rsum_map_ext {A} (f g : A → R) (l : list A) :
  (∀ x, x ∈ l → f x = g x) → Rsum (map f l) = Rsum (map g l).
Proof.
  induction l as [|x l IH]; intros Hfg; simpl; [done |].
  rewrite !Rsum_cons, Hfg, IH; [done | | left]. intros y Hy. apply Hfg. by right.
Qed.

Lemma Rsum_map_plus {A} (f g : A → R) (l : list A) :
  Rsum (map (λ x, f x + g x) l) = Rsum (map f l) + Rsum (map g l).
Proof.
  induction l as [|x l IH]; simpl; rewrite ?Rsum_nil, ?Rsum_cons, ?IH; lra.
Qed.

Lemma Rsum_map_zero {A} (l : list A) : Rsum (map (λ _, 0) l) = 0.
Proof. induction l as [|x l IH]; simpl; rewrite ?Rsum_nil, ?Rsum_cons, ?IH; lra. Qed.

(** A sum that picks the single position of [i] in a duplicate-free list. *)
Lemma Rsum_single (i : string) (c : R) (l : list string) :
  NoDup l → i ∈ l → Rsum (map (λ t, if decide (t = i) then c else 0) l) = c.
Proof.
  induction 1 as [|x l Hx Hl IH]; intros Hi; [by apply elem_of_nil in Hi |].
  simpl. rewrite Rsum_cons. destruct (decide (x = i)) as [-> | Hne].
  - rewrite (Rsum_map_ext _ (λ _, 0)), Rsum_map_zero; [lra |].
    intros y Hy. rewrite decide_False; [done | by intros ->].
  - rewrite IH; [lra |]. apply elem_of_cons in Hi as [? | ?]; [congruence | done].
Qed.

(** A sum of squares vanishes only when every term does. *)
Lemma Rsum_squares_zero {A} (f : A → R) (l : list A) :
  Rsum (map (λ x, f x * f x) l) = 0 → ∀ x, x ∈ l → f x = 0.
Proof.
  induction l as [|y l IH]; intros Hsum x Hx; [by apply elem_of_nil in Hx |].
  simpl in Hsum. rewrite Rsum_cons in Hsum.
  assert (0 <= Rsum (map (λ x, f x * f x) l)).
  { apply Rsum_nonneg, Forall_forall. intros z Hz.
    apply list_elem_of_fmap in Hz as (w & -> & _). nra. }
  apply elem_of_cons in Hx as [-> | Hx]; [nra |].
  apply IH; [nra | done].
Qed.

(** Summing over any duplicate-free list of terms that covers the keys of
    [a] is summing over the entries of [a]: the other terms contribute 0. *)
Lemma Rsum_over_terms (g : string → R → R) (a : gmap string R) (terms : list string) :
  NoDup terms → (∀ k, is_Some (a !! k) → k ∈ terms) →
  Rsum (map (λ t, match a !! t with Some v => g t v | None => 0 end) terms)
  = Rsum (map (λ '(k, v), g k v) (map_to_list a)).
Proof.
  intros Hnd. induction a as [|i x m Hi IH] using map_ind; intros Hcover.
  - rewrite map_to_list_empty. simpl.
    rewrite (Rsum_map_ext _ (λ _, 0)), Rsum_map_zero; [done |].
    intros t _. by rewrite lookup_empty.
  - rewrite (Rsum_Permutation _ _
               (Permutation_map (λ '(k, v), g k v) (map_to_list_insert m i x Hi))).
    simpl. rewrite Rsum_cons, <- IH.
    + rewrite <- (Rsum_single i (g i x) terms Hnd)
        by (apply Hcover; rewrite lookup_insert_eq; eauto).
      rewrite <- Rsum_map_plus. apply Rsum_map_ext. intros t _.
      destruct (decide (t = i)) as [-> | Hne].
      * rewrite lookup_insert_eq, Hi. lra.
      * rewrite lookup_insert_ne by done. lra.
    + intros k Hk. apply Hcover. destruct (decide (i = k)) as [-> | Hne].
      * rewrite lookup_insert_eq. eauto.
      * by rewrite lookup_insert_ne.
Qed.

(** ** Cosine similarity *)

(** The three accumulators of the loop in [cosineSimilarity]. *)
Lemma cosine_loop (tf1 tf2 : gmap string R) (terms : list string) (dot mag1 mag2 : R) :
  foldl (λ '(dot, mag1, mag2) term,
    let a := or_num (tf1 !! term) 0 in
    let b := or_num (tf2 !! term) 0 in
    (dot + a * b, mag1 + a * a, mag2 + b * b)) (dot, mag1, mag2) terms
  = (dot + Rsum (map (λ t, default 0 (tf1 !! t) * default 0 (tf2 !! t)) terms),
     mag1 + Rsum (map (λ t, default 0 (tf1 !! t) * default 0 (tf1 !! t)) terms),
     mag2 + Rsum (map (λ t, default 0 (tf2 !! t) * default 0 (tf2 !! t)) terms)).
Proof.
  revert dot mag1 mag2. induction terms as [|t terms IH]; intros dot mag1 mag2; simpl.
  - rewrite Rsum_nil. f_equal; [f_equal |]; lra.
  - rewrite IH, !Rsum_cons, !or_num_default. f_equal; [f_equal |]; lra.
Qed.

Lemma keys_cover_l (tf1 tf2 : gmap string R) (k : string) :
  is_Some (tf1 !! k) → k ∈ SetOf (keys tf1 ++ keys tf2).
Proof.
  intros [v Hv]. apply elem_of_SetOf, elem_of_app. left.
  unfold keys. apply list_elem_of_fmap. exists (k, v).
  split; [done | by apply elem_of_map_to_list].
Qed.

Lemma keys_cover_r (tf1 tf2 : gmap string R) (k : string) :
  is_Some (tf2 !! k) → k ∈ SetOf (keys tf1 ++ keys tf2).
Proof.
  intros [v Hv]. apply elem_of_SetOf, elem_of_app. right.
  unfold keys. apply list_elem_of_fmap. exists (k, v).
  split; [done | by apply elem_of_map_to_list].
Qed.

Lemma squares_nonneg (a : gmap string R) :
  0 <= Rsum (map (λ '(k, v), v * v) (map_to_list a)).
Proof.
  apply Rsum_nonneg, Forall_forall. intros z Hz.
  apply list_elem_of_fmap in Hz as ([k v] & -> & _). nra.
Qed.

(** The code's quotient, with the sums taken over each vector's entries. *)
Lemma cosineSimilarity_eq (a b : gmap string R) :
  cosineSimilarity a b
  = dotProduct a b / or_num (Some (magnitude a * magnitude b)) 1.
Proof.
  unfold cosineSimilarity, dotProduct, magnitude.
  rewrite cosine_loop, !Rplus_0_l.
  pose proof (NoDup_SetOf (keys a ++ keys b)) as Hnd.
  rewrite <- (Rsum_over_terms (λ k v, v * default 0 (b !! k)) a _ Hnd)
    by apply keys_cover_l.
  rewrite <- (Rsum_over_terms (λ k v, v * v) a _ Hnd) by apply keys_cover_l.
  rewrite <- (Rsum_over_terms (λ k v, v * v) b _ Hnd) by apply keys_cover_r.
  f_equal; [| do 3 f_equal]; [| f_equal ..];
    apply Rsum_map_ext; intros t _.
  - destruct (a !! t); simpl; lra.
  - destruct (a !! t); simpl; lra.
  - destruct (b !! t); simpl; lra.
Qed.

Lemma magnitude_zero (a : gmap string R) :
  magnitude a = 0 → ∀ k v, a !! k = Some v → v = 0.
Proof.
  unfold magnitude. intros H0 k v Hkv.
  apply sqrt_eq_0 in H0; [| apply squares_nonneg].
  assert (Hsq : Rsum (map (λ kv : string * R, kv.2 * kv.2) (map_to_list a)) = 0).
  { rewrite <- H0. apply Rsum_map_ext. by intros [] _. }
  apply (Rsum_squares_zero _ _ Hsq (k, v)). by apply elem_of_map_to_list.
Qed.

Lemma dotProduct_zero (a b : gmap string R) :
  magnitude a * magnitude b = 0 → dotProduct a b = 0.
Proof.
  intros H0. unfold dotProduct.
  rewrite (Rsum_map_ext _ (λ _, 0)); [apply Rsum_map_zero |].
  intros [k v] Hkv. apply elem_of_map_to_list in Hkv.
  apply Rmult_integral in H0 as [Ha | Hb].
  - rewrite (magnitude_zero a Ha k v Hkv). lra.
  - destruct (b !! k) as [w |] eqn:E; simpl; [| lra].
    rewrite (magnitude_zero b Hb k w E). lra.
Qed.

(** C4.  [cosineSimilarity(a, b)] is [dot(a, b)] divided by the product of
    the magnitudes; when that product is 0 (a vector is zero or empty) the
    result is exactly 0.  The divisor the code uses is never 0, which is
    what rules out NaN and Infinity in the quotient. *)
Theorem cosineSimilarity_guarded (a b : gmap string R) :
  (magnitude a * magnitude b ≠ 0 →
     cosineSimilarity a b = dotProduct a b / (magnitude a * magnitude b))
  ∧ (magnitude a * magnitude b = 0 → cosineSimilarity a b = 0)
  ∧ or_num (Some (magnitude a * magnitude b)) 1 ≠ 0
  ∧ cosineSimilarity a b
    = dotProduct a b / or_num (Some (magnitude a * magnitude b)) 1.
Proof.
  split_and!; [| | apply or_num_nonzero; lra | apply cosineSimilarity_eq].
  - intros Hne. rewrite cosineSimilarity_eq. unfold or_num.
    by rewrite decide_False.
  - intros H0. rewrite cosineSimilarity_eq, dotProduct_zero by done.
    unfold Rdiv. lra.
Qed.

Lemma cosineSimilarity_empty_r (a : gmap string R) : cosineSimilarity a ∅ = 0.
Proof.
  apply cosineSimilarity_guarded.
  unfold magnitude at 2. rewrite map_to_list_empty. simpl.
  rewrite Rsum_nil, sqrt_0. lra.
Qed.

Lemma dotProduct_nonneg (a b : gmap string R) :
  map_Forall (λ _ v, 0 <= v) a → map_Forall (λ _ v, 0 <= v) b →
  0 <= dotProduct a b.
Proof.
  intros Ha Hb. apply Rsum_nonneg, Forall_forall. intros z Hz.
  apply list_elem_of_fmap in Hz as ([k v] & -> & Hkv).
  apply elem_of_map_to_list in Hkv. specialize (Ha k v Hkv). simpl in Ha.
  destruct (b !! k) as [w |] eqn:E; simpl; [| lra].
  specialize (Hb k w E). simpl in Hb. nra.
Qed.

Lemma magnitude_nonneg (a : gmap string R) : 0 <= magnitude a.
Proof. apply sqrt_pos. Qed.

(** Vectors with non-negative weights have a non-negative cosine. *)
Lemma cosineSimilarity_nonneg (a b : gmap string R) :
  map_Forall (λ _ v, 0 <= v) a → map_Forall (λ _ v, 0 <= v) b →
  0 <= cosineSimilarity a b.
Proof.
  intros Ha Hb. rewrite cosineSimilarity_eq.
  pose proof (dotProduct_nonneg a b Ha Hb).
  pose proof (magnitude_nonneg a). pose proof (magnitude_nonneg b).
  apply Rmult_le_pos; [done |]. apply Rlt_le, Rinv_0_lt_compat.
  unfold or_num. case_decide; [lra | nra].
Qed.

(** ** Lexical scores *)

Lemma ln_nonneg (x : R) : 1 <= x → 0 <= ln x.
Proof.
  intros [Hlt | <-]; [| rewrite ln_1; lra].
  rewrite <- ln_1. apply Rlt_le, ln_increasing; lra.
Qed.

Lemma ratio_ge_1 (n d : nat) : (1 ≤ d ≤ n)%nat → 1 <= INR n / INR d.
Proof.
  intros [Hd Hn]. apply le_INR in Hd, Hn. simpl in Hd.
  assert (Hinv : 0 < / INR d) by (apply Rinv_0_lt_compat; lra).
  assert (Hone : INR d * / INR d = 1) by (apply Rinv_r; lra).
  unfold Rdiv. nra.
Qed.

(** The empty text has no token, provided the dictionaries leave the empty
    text alone. *)
Lemma tokenize_empty (phraseMap : list (string * string))
  (normalizationDictionary : gmap string string)
  (replacePhrase : string → string → string → string) :
  (∀ phrase replacement, replacePhrase phrase replacement EmptyString = EmptyString) →
  normalizationDictionary !! EmptyString = None →
  tokenize phraseMap normalizationDictionary replacePhrase EmptyString = [].
Proof.
  intros Hreplace Hdict. unfold tokenize.
  assert (Hmap : applyPhraseMap phraseMap replacePhrase EmptyString = EmptyString).
  { unfold applyPhraseMap. induction phraseMap as [|[phrase replacement] pm IH];
      simpl; [done | by rewrite Hreplace]. }
  rewrite Hmap. simpl. unfold normalizeToken. rewrite Hdict. simpl.
  by rewrite filter_cons_False by (intros [? _]; done).
Qed.

Section LexicalProperties.

Variable weights : Weights.
Variable phraseMap : list (string * string).
Variable normalizationDictionary : gmap string string.
Variable replacePhrase : string → string → string → string.

Lemma tfidfField_lookup (field : Issue.t → string) (all : list Issue.t)
  (i : nat) (doc : Issue.t) :
  all !! i = Some doc →
  tfidfField phraseMap normalizationDictionary replacePhrase field all !!! i
  = fieldVector phraseMap normalizationDictionary replacePhrase field all doc.
Proof.
  intros Hdoc. apply list_lookup_total_correct. unfold tfidfField, fieldVector.
  by rewrite !list_lookup_fmap, Hdoc.
Qed.

(** Every candidate gets the weighted sum of its two field cosines. *)
Lemma calculateTFIDFCosineSimilarity_lookup (current : Issue.t)
  (others : list Issue.t) (i : nat) (candidate : Issue.t) :
  others !! i = Some candidate →
  calculateTFIDFCosineSimilarity weights phraseMap normalizationDictionary
    replacePhrase current others !! i
  = Some {| key := Issue.key candidate;
            score := summaryCosine phraseMap normalizationDictionary replacePhrase
                       current others candidate * SUMMARY_WEIGHT weights
                     + descriptionCosine phraseMap normalizationDictionary
                         replacePhrase current others candidate
                       * DESCRIPTION_WEIGHT weights |}.
Proof.
  intros Hc. unfold calculateTFIDFCosineSimilarity. cbv zeta.
  rewrite list_lookup_imap, Hc. cbn [fmap option_fmap option_map].
  unfold summaryCosine, descriptionCosine.
  by rewrite !(tfidfField_lookup _ (current :: others) 0 current),
    !(tfidfField_lookup _ (current :: others) (S i) candidate).
Qed.

(** Within its own corpus a TF-IDF vector has no negative weight: every
    token of a document occurs in at least one and at most all documents. *)
Lemma fieldVector_nonneg (field : Issue.t → string) (all : list Issue.t)
  (doc : Issue.t) :
  doc ∈ all →
  map_Forall (λ _ v, 0 <= v)
    (fieldVector phraseMap normalizationDictionary replacePhrase field all doc).
Proof.
  intros Hdoc t v. unfold fieldVector. rewrite computeTfIdf_lookup.
  set (tok := tokenize phraseMap normalizationDictionary replacePhrase).
  case_decide as Ht; [| done]. intros [= <-].
  rewrite or_count_max, computeDocumentFrequencies_lookup.
  assert (Hb : (1 ≤ documentsWith t (map (λ d, tok (field d)) all)
                ≤ length all)%nat).
  { rewrite <- (length_map (λ d, tok (field d)) all).
    apply (documentsWith_bounds t _ (tok (field doc))); [| done].
    apply list_elem_of_fmap. by exists doc. }
  rewrite Nat.max_l by lia.
  apply Rmult_le_pos; [| by apply ln_nonneg, ratio_ge_1].
  apply Rmult_le_pos; [apply pos_INR |].
  destruct (tok (field doc)) as [|x l] eqn:E; [by apply elem_of_nil in Ht |].
  apply Rlt_le, Rinv_0_lt_compat, lt_0_INR. simpl. lia.
Qed.


(** C7.  A candidate with an empty description, whatever the query's
    description is: the description cosine is 0 and the lexical score is
    exactly [summaryCosine * SUMMARY_WEIGHT], the weights being used as
    configured.  The two hypotheses on the dictionaries say that they leave
    the empty text alone. *)
Theorem empty_description_scores_summary_only (current : Issue.t)
  (others : list Issue.t) (i : nat) (candidate : Issue.t) :
  (∀ phrase replacement, replacePhrase phrase replacement EmptyString = EmptyString) →
  normalizationDictionary !! EmptyString = None →
  others !! i = Some candidate →
  Issue.description candidate = EmptyString →
  descriptionCosine phraseMap normalizationDictionary replacePhrase
    current others candidate = 0
  ∧ calculateTFIDFCosineSimilarity weights phraseMap normalizationDictionary
      replacePhrase current others !! i
    = Some {| key := Issue.key candidate;
              score := summaryCosine phraseMap normalizationDictionary
                         replacePhrase current others candidate
                       * SUMMARY_WEIGHT weights |}.
Proof.
  intros Hreplace Hdict Hc Hempty.
  assert (H0 : descriptionCosine phraseMap normalizationDictionary replacePhrase
                 current others candidate = 0).
  { unfold descriptionCosine, fieldVector at 2.
    rewrite Hempty, tokenize_empty, computeTfIdf_nil by done.
    apply cosineSimilarity_empty_r. }
  split; [done |].
  rewrite (calculateTFIDFCosineSimilarity_lookup _ _ _ _ Hc), H0.
  do 2 f_equal. lra.
Qed.

End LexicalProperties.

(** ** Rounding and capping *)






(** ** Sorting *)

Lemma sort_insert_Permutation {A} (cmp : A → A → R) (x : A) (l : list A) :
  sort_insert cmp x l ≡ₚ x :: l.
Proof.
  induction l as [|y l IH]; simpl; [done |].
  destruct (Rlt_dec 0 (cmp x y)); [| done].
  by rewrite IH, Permutation_swap.
Qed.

Lemma Array_sort_Permutation {A} (cmp : A → A → R) (l : list A) :
  Array_sort cmp l ≡ₚ l.
Proof.
  induction l as [|x l IH]; simpl; [done |].
  by rewrite sort_insert_Permutation, IH.
Qed.

Lemma Array_sort_length {A} (cmp : A → A → R) (l : list A) :
  length (Array_sort cmp l) = length l.
Proof. by rewrite Array_sort_Permutation. Qed.

(** An element is only moved behind elements the comparator puts strictly
    first, so a class of elements that the comparator never separates keeps
    its order. *)
Lemma filter_sort_insert {A} (cmp : A → A → R) (P : A → Prop)
  `{∀ x, Decision (P x)} (x : A) (l : list A) :
  (∀ a b, P a → P b → ¬ 0 < cmp a b) →
  filter P (sort_insert cmp x l) = filter P (x :: l).
Proof.
  intros Htie. induction l as [|y l IH]; simpl; [done |].
  destruct (Rlt_dec 0 (cmp x y)) as [Hlt | Hge]; [| done].
  destruct (decide (P y)) as [Hy | Hy].
  - assert (Hx : ¬ P x) by (intros Hx; by apply (Htie x y)).
    rewrite filter_cons_True, IH by done.
    by rewrite !(filter_cons_False P x), filter_cons_True by done.
  - rewrite filter_cons_False, IH by done.
    destruct (decide (P x)).
    + by rewrite !(filter_cons_True P x), filter_cons_False by done.
    + by rewrite !(filter_cons_False P x), filter_cons_False by done.
Qed.

Lemma filter_Array_sort {A} (cmp : A → A → R) (P : A → Prop)
  `{∀ x, Decision (P x)} (l : list A) :
  (∀ a b, P a → P b → ¬ 0 < cmp a b) →
  filter P (Array_sort cmp l) = filter P l.
Proof.
  intros Htie. induction l as [|x l IH]; simpl; [done |].
  rewrite filter_sort_insert by done.
  destruct (decide (P x)).
  - by rewrite !(filter_cons_True P x), IH by done.
  - by rewrite !(filter_cons_False P x), IH by done.
Qed.

Lemma filter_take_prefix {A} (P : A → Prop) `{∀ x, Decision (P x)}
  (n : nat) (l : list A) :
  filter P (take n l) `prefix_of` filter P l.
Proof.
  exists (filter P (drop n l)). by rewrite <- filter_app, take_drop.
Qed.

(** The result of the insertion is ordered when the comparator is the
    difference of a score, as in [(a, b) => b.score - a.score]. *)
Lemma sort_insert_sorted {A} (f : A → R) (x : A) (l : list A) :
  StronglySorted (λ a b, f b <= f a) l →
  StronglySorted (λ a b, f b <= f a) (sort_insert (λ a b, f b - f a) x l).
Proof.
  induction 1 as [|y l Hl IH Hy]; simpl; [repeat constructor |].
  destruct (Rlt_dec 0 (f y - f x)) as [Hlt | Hge].
  - constructor; [done |].
    rewrite sort_insert_Permutation. constructor; [lra | done].
  - constructor; [by constructor |].
    constructor; [lra |]. eapply Forall_impl; [done |]. simpl. intros z Hz. lra.
Qed.

Lemma Array_sort_sorted {A} (f : A → R) (l : list A) :
  StronglySorted (λ a b, f b <= f a) (Array_sort (λ a b, f b - f a) l).
Proof.
  induction l as [|x l IH]; simpl; [constructor | by apply sort_insert_sorted].
Qed.

(** ** The resolver *)

Section ResolverProperties.

Variable weights : Weights.
Variable phraseMap : list (string * string).
Variable normalizationDictionary : gmap string string.
Variable replacePhrase : string → string → string → string.
Variable network : nat → Payload.t → Completion Response.

Local Abbreviation lexicalScored issueData all :=
  (calculateTFIDFCosineSimilarity weights phraseMap normalizationDictionary
     replacePhrase (currentOf issueData) (othersOf all)).
Local Abbreviation semanticScored issueData all :=
  (calculateSemanticSimilarity weights network (currentOf issueData) (othersOf all)).
Local Abbreviation boostOf issueData all k :=
  (candidateBoost weights (currentMetadataOf issueData) (othersMetadataOf all) k).
Local Abbreviation scoredOf :=
  (similarityScored weights phraseMap normalizationDictionary replacePhrase network).
Local Abbreviation resolver :=
  (fetchIssues weights phraseMap normalizationDictionary replacePhrase network).
Local Abbreviation summaryFields all :=
  (map (λ issue, Field.mk (Issue.key issue) (Issue.summary issue)) (othersOf all)).
Local Abbreviation descriptionFields all :=
  (map (λ issue, Field.mk (Issue.key issue) (Issue.description issue)) (othersOf all)).
Local Abbreviation byScore := (λ a b, Result.score b - Result.score a).

(** Steps 3 and 4, once the semantic scores are there. *)
Lemma similarityScored_eq (issueData : Jira.t) (all : list Jira.t)
  (n n' : nat) (sem : list Scored) :
  semanticScored issueData all n = (Normal sem, n') →
  scoredOf issueData all n
  = (Normal (map (λ m,
       Result.mk (key m)
         (or_str (Issue.summary <$> find_issue (key m) (othersOf all)) EmptyString)
         (or_str (Issue.description <$> find_issue (key m) (othersOf all)) EmptyString)
         (Math_min
            (Math_round ((score m + boostOf issueData all (key m)) * 100) / 100) 1))
       (mergeSimilarityScores weights sem (lexicalScored issueData all))), n').
Proof.
  intros Hsem. unfold similarityScored, mbind, Async_bind. rewrite Hsem.
  unfold mret, Async_ret. by rewrite applyBoostingLogic_eq, map_map.
Qed.

Lemma fetchIssues_eq (issueData : Jira.t) (all : list Jira.t)
  (n n' : nat) (scored : list Result.t) :
  scoredOf issueData all n = (Normal scored, n') →
  resolver issueData all n
  = (Normal {| current := currentOf issueData;
               similar := take 10 (Array_sort byScore scored) |}, n').
Proof.
  intros Hscored. unfold fetchIssues, mbind, Async_bind. by rewrite Hscored.
Qed.

(** The scored list has one entry per candidate, in candidate order; two
    requests have been sent by then. *)
Lemma similarityScored_total (issueData : Jira.t) (all : list Jira.t) (n : nat) :
  ∃ scored, scoredOf issueData all n = (Normal scored, S (S n))
            ∧ map Result.key scored = map Jira.key all.
Proof.
  destruct (fetchSemanticSimilarity_total network
              (Field.mk (Issue.key (currentOf issueData))
                 (Issue.summary (currentOf issueData)))
              (summaryFields all) n) as [sm Hsm].
  destruct (fetchSemanticSimilarity_total network
              (Field.mk (Issue.key (currentOf issueData))
                 (Issue.description (currentOf issueData)))
              (descriptionFields all) (S n)) as [dm Hdm].
  pose proof (calculateSemanticSimilarity_eq weights network _ _ _ _ _ Hsm Hdm)
    as Hsem.
  eexists. split; [by eapply similarityScored_eq |].
  unfold mergeSimilarityScores, othersOf. rewrite !map_map. by apply map_ext.
Qed.

(** C5.  The ranking is a stable sort by descending score: the candidates
    that share a score appear in the result in the order in which the
    candidate sequence had them.  The scored list is in candidate order,
    the sorted list is an ordered permutation of it that keeps every class
    of equal scores as it was, and the result is its first ten entries, so
    each class of the result is an initial part of the class in candidate
    order. *)
Theorem ranking_is_stable (issueData : Jira.t) (all : list Jira.t) (n : nat) :
  ∃ scored sorted out,
    scoredOf issueData all n = (Normal scored, S (S n))
    ∧ map Result.key scored = map Jira.key all
    ∧ resolver issueData all n = (Normal out, S (S n))
    ∧ similar out = take 10 sorted
    ∧ sorted ≡ₚ scored
    ∧ StronglySorted (λ a b, Result.score b <= Result.score a) sorted
    ∧ (∀ s, filter (λ r, Result.score r = s) sorted
            = filter (λ r, Result.score r = s) scored)
    ∧ (∀ s, filter (λ r, Result.score r = s) (similar out)
            `prefix_of` filter (λ r, Result.score r = s) scored).
Proof.
  destruct (similarityScored_total issueData all n) as (scored & Hscored & Hkeys).
  assert (Hstable : ∀ s, filter (λ r, Result.score r = s) (Array_sort byScore scored)
                         = filter (λ r, Result.score r = s) scored).
  { intros s. apply filter_Array_sort. intros a b Ha Hb. lra. }
  exists scored, (Array_sort byScore scored). eexists.
  split_and!; [done | done | by apply fetchIssues_eq | done
              | apply Array_sort_Permutation
              | apply (Array_sort_sorted Result.score) | done |].
  intros s. simpl. rewrite <- Hstable. apply filter_take_prefix.
Qed.

(** C6, as the code has it.  The ranked list is cut to its first ten
    entries: its length is the smaller of 10 and the number of candidates,
    whatever the configuration. *)
Theorem result_has_at_most_ten_entries (issueData : Jira.t) (all : list Jira.t)
  (n : nat) :
  ∃ scored out,
    scoredOf issueData all n = (Normal scored, S (S n))
    ∧ resolver issueData all n = (Normal out, S (S n))
    ∧ similar out = take 10 (Array_sort byScore scored)
    ∧ length (similar out) = Nat.min 10 (length all)
    ∧ (length (similar out) ≤ 10)%nat.
Proof.
  destruct (similarityScored_total issueData all n) as (scored & Hscored & Hkeys).
  exists scored. eexists. split_and!; [done | by apply fetchIssues_eq | done | |].
  - simpl. rewrite length_take, Array_sort_length.
    by rewrite <- (length_map Result.key), Hkeys, length_map.
  - simpl. rewrite length_take. lia.
Qed.

(** C9.  Whatever the provider does, the adapter returns a map: a failed
    call (rejected request, non-success response, unreadable body) yields
    the empty map.  The aggregation counts a candidate missing from a
    field's map as 0 for that field, and the resolver completes normally:
    no failure of the provider reaches its caller. *)
Theorem provider_failure_is_absorbed (issueData : Jira.t) (all : list Jira.t)
  (n : nat) :
  (∀ current others k,
     ProviderFailure (network k (Payload.mk current others)) →
     fetchSemanticSimilarity network current others k = (Normal ∅, S k))
  ∧ (∃ summaryScores descriptionScores scored,
       fetchSemanticSimilarity network
         (Field.mk (Jira.key issueData) (Jira.summary issueData))
         (summaryFields all) n = (Normal summaryScores, S n)
       ∧ fetchSemanticSimilarity network
           (Field.mk (Jira.key issueData) (Jira.description issueData))
           (descriptionFields all) (S n) = (Normal descriptionScores, S (S n))
       ∧ semanticScored issueData all n = (Normal scored, S (S n))
       ∧ ∀ i issue, all !! i = Some issue →
           ∃ e, scored !! i = Some e
                ∧ key e = Jira.key issue
                ∧ score e
                  = default 0 (summaryScores !! Jira.key issue)
                      * SUMMARY_WEIGHT weights
                    + default 0 (descriptionScores !! Jira.key issue)
                      * DESCRIPTION_WEIGHT weights
                ∧ (summaryScores !! Jira.key issue = None →
                   descriptionScores !! Jira.key issue = None →
                   score e = 0))
  ∧ (∃ out, resolver issueData all n = (Normal out, S (S n))).
Proof.
  split_and!.
  - apply fetchSemanticSimilarity_failure.
  - destruct (fetchSemanticSimilarity_total network
                (Field.mk (Jira.key issueData) (Jira.summary issueData))
                (summaryFields all) n) as [sm Hsm].
    destruct (fetchSemanticSimilarity_total network
                (Field.mk (Jira.key issueData) (Jira.description issueData))
                (descriptionFields all) (S n)) as [dm Hdm].
    exists sm, dm. eexists. split_and!; [done | done | |].
    + by apply (calculateSemanticSimilarity_eq weights network (currentOf issueData)).
    + intros i issue Hi. eexists. split_and!.
      * unfold othersOf. by rewrite !list_lookup_fmap, Hi.
      * done.
      * simpl. by rewrite !or_num_default.
      * intros Hs Hd. simpl. rewrite Hs, Hd. simpl. lra.
  - destruct (similarityScored_total issueData all n) as (scored & Hscored & _).
    eexists. by apply fetchIssues_eq.
Qed.


End ResolverProperties.

(** ** Worked examples and instances *)

(** Instance of C1 at the shipped configuration: a semantic score of 0.5 is
    below the threshold 0.6 and is blended with the lexical score. *)
Lemma merge_threshold_gate_witness :
  [{| key := "PRJ-1"; score := 5 / 10 |}] !! 0%nat
    = Some {| key := "PRJ-1"; score := 5 / 10 |}
  ∧ ∃ out,
    mergeSimilarityScores config [{| key := "PRJ-1"; score := 5 / 10 |}]
      [{| key := "PRJ-1"; score := 3 / 10 |}] !! 0%nat = Some out
    ∧ key out = "PRJ-1"
    ∧ (5 / 10 >= SEMANTIC_THRESHOLD config → score out = 5 / 10)
    ∧ (5 / 10 = SEMANTIC_THRESHOLD config → score out = 5 / 10)
    ∧ (5 / 10 < SEMANTIC_THRESHOLD config →
       ∀ j lexical,
         [{| key := "PRJ-1"; score := 3 / 10 |}] !! j = Some lexical →
         key lexical = "PRJ-1"%string →
         (∀ j' x, (j' < j)%nat →
                  [{| key := "PRJ-1"; score := 3 / 10 |}] !! j' = Some x →
                  key x ≠ "PRJ-1"%string) →
         score out = 5 / 10 * SEMANTIC_WEIGHT config
                     + score lexical * TFIDF_WEIGHT config).
Proof.
  split; [reflexivity |].
  apply (merge_threshold_gate config
           [{| key := "PRJ-1"; score := 5 / 10 |}]
           [{| key := "PRJ-1"; score := 3 / 10 |}] 0
           {| key := "PRJ-1"; score := 5 / 10 |}).
  reflexivity.
Defined.

Example tokenize_example :
  tokenize [] ∅ no_phrases "Login fails on the Mobile-app, v2_x!"
  = ["login"; "fails"; "mobile"; "app"; "v2_x"]%string.
Proof. reflexivity. Qed.

Example split_W_example : split_W " a  b " = [""; "a"; "b"; ""]%string.
Proof. reflexivity. Qed.

Example SetOf_example : SetOf ["ui"; "mobile"; "ui"]%string = ["ui"; "mobile"]%string.
Proof. reflexivity. Qed.

(** Scenario B: a semantic score of 0.9 is above the threshold 0.6 and is
    returned as it is, whatever the lexical score. *)
Example merge_above_threshold (lexical : R) :
  mergeSimilarityScores config [{| key := "PRJ-2"; score := 9 / 10 |}]
    [{| key := "PRJ-2"; score := lexical |}]
  = [{| key := "PRJ-2"; score := 9 / 10 |}].
Proof.
  unfold mergeSimilarityScores. simpl.
  destruct (Rge_dec _ _) as [_ | Hlt]; [done |].
  exfalso. apply Hlt. unfold SEMANTIC_THRESHOLD. simpl. lra.
Qed.

(** All three heuristics fire for PRJ-2: 0.05 + 2 * 0.02 + 0.02 = 0.11,
    capped to 0.1. *)
Example boost_example :
  boostFor config (currentMetadataOf queryIssue)
    (Meta.mk "PRJ-2" (Some {| id := Some "10001"%string |})
       ["mobile"; "ui"; "web"]%string [{| name := "auth" |}])
  = 1 / 10.
Proof.
  rewrite boostFor_capped. unfold accumulatedBoost. simpl.
  replace (overlap _ _) with 2%nat by (vm_compute; reflexivity).
  replace (overlap _ _) with 1%nat by (vm_compute; reflexivity).
  unfold BOOST_ISSUETYPE_MATCH, BOOST_LABELS_OVERLAP, BOOST_COMPONENTS_OVERLAP,
    MAX_BOOST. simpl.
  apply Rmin_right. lra.
Qed.

(** Below the threshold the two scores are blended:
    0.5 * 0.8 + 0.3 * 0.2 = 0.46. *)
Example merge_below_threshold :
  mergeSimilarityScores config [{| key := "PRJ-1"; score := 5 / 10 |}]
    [{| key := "PRJ-1"; score := 3 / 10 |}]
  = [{| key := "PRJ-1"; score := 46 / 100 |}].
Proof.
  unfold mergeSimilarityScores. simpl.
  destruct (Rge_dec _ _) as [Hge | _].
  - exfalso. unfold SEMANTIC_THRESHOLD in Hge. simpl in Hge. lra.
  - case_decide; [lra |]. do 2 f_equal. lra.
Qed.

(** The comparison of the issue types is [undefined === undefined] when
    neither issue has one: the boost is granted. *)
Example boost_without_issuetypes :
  boostFor config (Meta.mk "PRJ-1" None [] []) (Meta.mk "PRJ-3" None [] [])
  = 5 / 100.
Proof.
  unfold boostFor. simpl.
  unfold BOOST_ISSUETYPE_MATCH, MAX_BOOST, Math_min. simpl.
  rewrite Rmin_left; lra.
Qed.

(** Scenario C: two candidates tie at 0.75 and keep their order behind the
    candidate that scores 0.9. *)
Example sort_keeps_ties :
  Array_sort (λ a b, Result.score b - Result.score a)
    [Result.mk "PRJ-4" "a" "" (75 / 100); Result.mk "PRJ-2" "b" "" (9 / 10);
     Result.mk "PRJ-5" "c" "" (75 / 100)]
  = [Result.mk "PRJ-2" "b" "" (9 / 10); Result.mk "PRJ-4" "a" "" (75 / 100);
     Result.mk "PRJ-5" "c" "" (75 / 100)].
Proof.
  unfold Array_sort. simpl.
  repeat (destruct (Rlt_dec _ _) as [? | ?]; simpl in *; try lra).
  reflexivity.
Qed.

(** Rounding to two decimals, ties going up: 0.125 becomes 0.13. *)
Example roundTo2_example : roundTo2 (125 / 1000) = 13 / 100.
Proof.
  unfold roundTo2, Math_round.
  replace (Zfloor (125 / 1000 * 100 + / 2)) with 13%Z; [lra |].
  symmetry. apply Zfloor_eq. lra.
Qed.

Lemma provider_up_scores (current : Field.t) (others : list Field.t) (n : nat) :
  fetchSemanticSimilarity provider_up current others n
  = (Normal provider_scores, S n).
Proof. reflexivity. Qed.

Lemma provider_scores_unit : map_Forall (λ _ v, 0 <= v <= 1) provider_scores.
Proof.
  unfold provider_scores.
  apply map_Forall_insert_2; [lra |].
  apply map_Forall_insert_2; [lra |].
  apply map_Forall_empty.
Qed.

Lemma config_nonneg : weights_nonneg config.
Proof. unfold weights_nonneg, config; simpl. repeat split; lra. Qed.

(** Instance of C10: PRJ-9 occurs only in the TF-IDF list. *)
Lemma merge_follows_semantic_list_witness :
  ({| key := "PRJ-9"; score := 7 / 10 |} ∈ [{| key := "PRJ-9"; score := 7 / 10 |}])
  ∧ ("PRJ-9"%string ∉ map key [{| key := "PRJ-2"; score := 5 / 10 |}])
  ∧ ("PRJ-9"%string
     ∉ map key (mergeSimilarityScores config
                  [{| key := "PRJ-2"; score := 5 / 10 |}]
                  [{| key := "PRJ-9"; score := 7 / 10 |}])).
Proof.
  assert (Hin : {| key := "PRJ-9"; score := 7 / 10 |}
                ∈ [{| key := "PRJ-9"; score := 7 / 10 |}]) by left.
  assert (Hout : "PRJ-9"%string ∉ map key [{| key := "PRJ-2"; score := 5 / 10 |}]).
  { simpl. intros H. apply list_elem_of_singleton in H. discriminate H. }
  split; [exact Hin |]. split; [exact Hout |].
  exact (proj1 (proj2 (proj2
           (merge_follows_semantic_list config
              [{| key := "PRJ-2"; score := 5 / 10 |}]
              [{| key := "PRJ-9"; score := 7 / 10 |}])))
           {| key := "PRJ-9"; score := 7 / 10 |} Hin Hout).
Defined.

(** Instance of C3: PRJ-7 has no metadata entry and keeps its score. *)
Lemma boost_is_capped_overlap_count_witness :
  ({| key := "PRJ-7"; score := 4 / 10 |} ∈ [{| key := "PRJ-7"; score := 4 / 10 |}])
  ∧ ("PRJ-7"%string ∉ map Meta.key (othersMetadataOf candidateIssues))
  ∧ candidateBoost config (currentMetadataOf queryIssue)
      (othersMetadataOf candidateIssues) "PRJ-7" = 0
  ∧ ({| key := "PRJ-7"; score := 4 / 10 |}
     ∈ applyBoostingLogic config (currentMetadataOf queryIssue)
         (othersMetadataOf candidateIssues) [{| key := "PRJ-7"; score := 4 / 10 |}]).
Proof.
  assert (Hin : {| key := "PRJ-7"; score := 4 / 10 |}
                ∈ [{| key := "PRJ-7"; score := 4 / 10 |}]) by left.
  assert (Hout : "PRJ-7"%string ∉ map Meta.key (othersMetadataOf candidateIssues)).
  { simpl. intros H. apply elem_of_cons in H as [H | H]; [discriminate H |].
    apply list_elem_of_singleton in H. discriminate H. }
  split; [exact Hin |]. split; [exact Hout |].
  exact (proj2 (proj2
           (boost_is_capped_overlap_count config (currentMetadataOf queryIssue)
              (othersMetadataOf candidateIssues)
              [{| key := "PRJ-7"; score := 4 / 10 |}]))
           {| key := "PRJ-7"; score := 4 / 10 |} Hin Hout).
Defined.

Lemma magnitude_empty : magnitude ∅ = 0.
Proof.
  unfold magnitude. rewrite map_to_list_empty. simpl. rewrite Rsum_nil. apply sqrt_0.
Qed.

(** Instance of C4: against the empty vector the product of the magnitudes
    is 0 and so is the cosine. *)
Lemma cosineSimilarity_guarded_witness :
  magnitude {["login"%string := 1]} * magnitude ∅ = 0
  ∧ cosineSimilarity {["login"%string := 1]} ∅ = 0.
Proof.
  assert (H0 : magnitude {["login"%string := 1]} * magnitude ∅ = 0)
    by (rewrite magnitude_empty; lra).
  split; [exact H0 |].
  exact (proj1 (proj2 (cosineSimilarity_guarded {["login"%string := 1]} ∅)) H0).
Defined.

(** Instance of C8: "login" occurs twice among three tokens and is missing
    from the document frequencies. *)
Lemma computeTfIdf_weight_witness :
  ["login"; "fails"; "login"]%string ≠ []
  ∧ ("login"%string ∈ ["login"; "fails"; "login"]%string)
  ∧ ({["fails"%string := 2%nat]} : gmap string nat) !! "login"%string = None
  ∧ computeTfIdf ["login"; "fails"; "login"]%string {["fails"%string := 2%nat]} 4
      !! "login"%string
    = Some (INR (occurrences "login" ["login"; "fails"; "login"]%string)
            / INR (length ["login"; "fails"; "login"]%string)
            * ln (INR 4 / INR 1)).
Proof.
  assert (Hne : ["login"; "fails"; "login"]%string ≠ []) by discriminate.
  assert (Hin : "login"%string ∈ ["login"; "fails"; "login"]%string) by left.
  assert (Hdf : ({["fails"%string := 2%nat]} : gmap string nat) !! "login"%string
                = None) by reflexivity.
  split; [exact Hne |]. split; [exact Hin |]. split; [exact Hdf |].
  exact (proj2 (proj1
           (computeTfIdf_weight ["login"; "fails"; "login"]%string
              {["fails"%string := 2%nat]} 4 Hne) "login"%string Hin) Hdf).
Defined.

(** Instance of C7 (scenario D): PRJ-2 has an empty description, the query
    has one. *)
Lemma empty_description_scores_summary_only_witness :
  (∀ phrase replacement, no_phrases phrase replacement EmptyString = EmptyString)
  ∧ (∅ : gmap string string) !! EmptyString = None
  ∧ othersOf candidateIssues !! 0%nat
    = Some (Issue.mk "PRJ-2" "login fails on mobile app" EmptyString)
  ∧ Issue.description (Issue.mk "PRJ-2" "login fails on mobile app" EmptyString)
    = EmptyString
  ∧ descriptionCosine [] ∅ no_phrases (currentOf queryIssue)
      (othersOf candidateIssues)
      (Issue.mk "PRJ-2" "login fails on mobile app" EmptyString) = 0
  ∧ calculateTFIDFCosineSimilarity config [] ∅ no_phrases (currentOf queryIssue)
      (othersOf candidateIssues) !! 0%nat
    = Some {| key := "PRJ-2";
              score := summaryCosine [] ∅ no_phrases (currentOf queryIssue)
                         (othersOf candidateIssues)
                         (Issue.mk "PRJ-2" "login fails on mobile app" EmptyString)
                       * SUMMARY_WEIGHT config |}.
Proof.
  assert (H1 : ∀ phrase replacement : string,
             no_phrases phrase replacement EmptyString = EmptyString)
    by (intros; reflexivity).
  assert (H2 : (∅ : gmap string string) !! EmptyString = None) by reflexivity.
  assert (H3 : othersOf candidateIssues !! 0%nat
               = Some (Issue.mk "PRJ-2" "login fails on mobile app" EmptyString))
    by reflexivity.
  assert (H4 : Issue.description
                 (Issue.mk "PRJ-2" "login fails on mobile app" EmptyString)
               = EmptyString) by reflexivity.
  split; [exact H1 |]. split; [exact H2 |]. split; [exact H3 |].
  split; [exact H4 |].
  exact (empty_description_scores_summary_only config [] ∅ no_phrases
           (currentOf queryIssue) (othersOf candidateIssues) 0
           (Issue.mk "PRJ-2" "login fails on mobile app" EmptyString)
           H1 H2 H3 H4).
Defined.

(** Instance of C9: the provider is down, the adapter returns the empty
    map. *)
Lemma provider_failure_is_absorbed_witness :
  ProviderFailure
    (provider_down 0%nat (Payload.mk (Field.mk "PRJ-1" "Login fails on the mobile") []))
  ∧ fetchSemanticSimilarity provider_down
      (Field.mk "PRJ-1" "Login fails on the mobile") [] 0%nat = (Normal ∅, 1%nat).
Proof.
  assert (Hfail : ProviderFailure
            (provider_down 0%nat
               (Payload.mk (Field.mk "PRJ-1" "Login fails on the mobile") [])))
    by apply request_rejected.
  split; [exact Hfail |].
  exact (proj1 (provider_failure_is_absorbed config [] ∅ no_phrases provider_down
                  queryIssue candidateIssues 0%nat)
           (Field.mk "PRJ-1" "Login fails on the mobile") [] 0%nat Hfail).
Defined.


(** C6, as the claim has it, fails: no configuration makes the resolver
    return fewer than ten of its candidates.  With three candidates the
    result has three entries under every configuration, so a limit of 2
    cannot be configured. *)
Lemma truncation_limit_is_not_configurable :
  ¬ (∀ N : nat,
       ∃ weights phraseMap normalizationDictionary replacePhrase,
         ∀ network issueData all n out n',
           fetchIssues weights phraseMap normalizationDictionary replacePhrase
             network issueData all n = (Normal out, n') →
           (length (similar out) ≤ N)%nat).
Proof.
  intros Hconfigurable.
  destruct (Hconfigurable 2%nat) as (weights & pm & nd & rp & Hlimit).
  set (all := candidateIssues ++ [queryIssue]).
  destruct (similarityScored_total weights pm nd rp provider_down
              queryIssue all 0%nat) as (scored & Hscored & Hkeys).
  pose proof (fetchIssues_eq _ _ _ _ _ _ _ _ _ _ Hscored) as Hout.
  apply Hlimit in Hout. simpl in Hout.
  rewrite length_take, Array_sort_length in Hout.
  rewrite <- (length_map Result.key), Hkeys, length_map in Hout.
  simpl in Hout. lia.
Qed.

(** * Further properties of the code *)

(** ** Text preprocessing *)

Lemma string_forall_app (P : Ascii.ascii → bool) (s1 s2 : string) :
  string_forall P (s1 +:+ s2) = string_forall P s1 && string_forall P s2.
Proof.
  induction s1 as [|c s1 IH]; simpl; [done |]. by rewrite IH, andb_assoc.
Qed.

Lemma lower_char_not_upper (c : Ascii.ascii) : is_upper_char (lower_char c) = false.
Proof. by destruct c as [[] [] [] [] [] [] [] []]. Qed.

Lemma lower_char_word (c : Ascii.ascii) :
  is_word_char (lower_char c) = is_word_char c.
Proof. by destruct c as [[] [] [] [] [] [] [] []]. Qed.

Lemma lower_char_idemp (c : Ascii.ascii) : lower_char (lower_char c) = lower_char c.
Proof. by destruct c as [[] [] [] [] [] [] [] []]. Qed.

Lemma toLowerCase_idemp (s : string) : toLowerCase (toLowerCase s) = toLowerCase s.
Proof. induction s as [|c s IH]; simpl; [done |]. by rewrite lower_char_idemp, IH. Qed.

Lemma toLowerCase_not_upper (s : string) :
  string_forall (λ c, negb (is_upper_char c)) (toLowerCase s) = true.
Proof.
  induction s as [|c s IH]; simpl; [done |]. by rewrite lower_char_not_upper, IH.
Qed.

Lemma toLowerCase_no_word (s : string) :
  string_forall (λ c, negb (is_word_char c)) (toLowerCase s)
  = string_forall (λ c, negb (is_word_char c)) s.
Proof.
  induction s as [|c s IH]; simpl; [done |]. by rewrite lower_char_word, IH.
Qed.

(** The pieces are built from the word characters of the text only. *)
Lemma split_W_from_forall (P : Ascii.ascii → bool) (s cur : string) (sep : bool) :
  string_forall P cur = true →
  string_forall (λ c, implb (is_word_char c) (P c)) s = true →
  Forall (λ p, string_forall P p = true) (split_W_from s cur sep).
Proof.
  revert cur sep. induction s as [|c s IH]; intros cur sep Hcur Hs; simpl.
  - by constructor.
  - simpl in Hs. apply andb_true_iff in Hs as [Hc Hs].
    destruct (is_word_char c) eqn:Hw.
    + apply IH; [| done]. rewrite string_forall_app, Hcur. simpl in *.
      by rewrite Hc.
    + destruct sep; [by apply IH | constructor; [done | by apply IH]].
Qed.

Lemma string_forall_implb_refl (s : string) :
  string_forall (λ c, implb (is_word_char c) (is_word_char c)) s = true.
Proof.
  induction s as [|c s IH]; simpl; [done |]. rewrite IH. by destruct (is_word_char c).
Qed.

Lemma string_forall_implb_weaken (P : Ascii.ascii → bool) (s : string) :
  string_forall P s = true →
  string_forall (λ c, implb (is_word_char c) (P c)) s = true.
Proof.
  induction s as [|c s IH]; simpl; [done |].
  intros [Hc Hs]%andb_true_iff. rewrite Hc, IH by done.
  by destruct (is_word_char c).
Qed.

Lemma append_nonempty (cur : string) (c : Ascii.ascii) :
  cur +:+ String c EmptyString ≠ EmptyString.
Proof. by destruct cur. Qed.

(** While a piece is being read or a separator is being skipped, every
    piece but the last one is non-empty. *)
Lemma split_W_from_inner (s cur : string) (sep : bool) :
  (if sep then cur = EmptyString else cur ≠ EmptyString) →
  ∀ i p, split_W_from s cur sep !! i = Some p →
         (S i < length (split_W_from s cur sep))%nat → p ≠ EmptyString.
Proof.
  revert cur sep. induction s as [|c s IH]; intros cur sep Hst i p Hp Hi.
  - simpl in Hi. lia.
  - simpl in Hp, Hi. destruct (is_word_char c).
    + eapply (IH _ false); [apply append_nonempty | exact Hp | exact Hi].
    + destruct sep.
      * subst cur. by apply (IH EmptyString true eq_refl i p).
      * destruct i as [|i]; simpl in Hp, Hi.
        -- by injection Hp as <-.
        -- apply (IH EmptyString true eq_refl i p); [done | lia].
Qed.

(** [split(/\W+/)]: every piece consists of word characters only, and only
    the first and the last piece can be empty. *)
Lemma split_W_pieces (s : string) :
  Forall (λ p, string_forall is_word_char p = true) (split_W s)
  ∧ (∀ i p, split_W s !! i = Some p → (0 < i)%nat →
            (S i < length (split_W s))%nat → p ≠ EmptyString)
  ∧ split_W s ≠ [].
Proof.
  split_and!.
  - apply split_W_from_forall; [done | apply string_forall_implb_refl].
  - unfold split_W. destruct s as [|c s]; simpl; [intros; lia |].
    destruct (is_word_char c).
    + intros i p Hp _ Hi. eapply (split_W_from_inner _ _ false);
        [apply append_nonempty | exact Hp | exact Hi].
    + intros [|i] p Hp Hpos Hi; [lia |]. simpl in Hp, Hi.
      apply (split_W_from_inner s EmptyString true eq_refl i p); [done | lia].
  - unfold split_W. destruct s as [|c s]; simpl; [done |].
    destruct (is_word_char c); [| done].
    generalize (EmptyString +:+ String c EmptyString). generalize false.
    induction s as [|c' s IH]; intros sep cur; simpl; [done |].
    destruct (is_word_char c'); [apply IH |]. destruct sep; [apply IH | done].
Qed.

(** Instance: the piece between two separators of [" a  b "]. *)
Lemma split_W_pieces_witness :
  split_W " a  b " !! 1%nat = Some "a"%string
  ∧ (0 < 1)%nat
  ∧ (2 < length (split_W " a  b "))%nat
  ∧ "a"%string ≠ EmptyString.
Proof.
  assert (H1 : split_W " a  b " !! 1%nat = Some "a"%string) by reflexivity.
  assert (H2 : (0 < 1)%nat) by lia.
  assert (H3 : (2 < length (split_W " a  b "))%nat) by (simpl; lia).
  split; [exact H1 |]. split; [exact H2 |]. split; [exact H3 |].
  exact (proj1 (proj2 (split_W_pieces " a  b ")) 1%nat "a"%string H1 H2 H3).
Defined.

Lemma split_W_from_no_word (s : string) (sep : bool) :
  string_forall (λ c, negb (is_word_char c)) s = true →
  Forall (λ p, p = EmptyString) (split_W_from s EmptyString sep).
Proof.
  revert sep. induction s as [|c s IH]; intros sep Hs; simpl.
  - by constructor.
  - simpl in Hs. apply andb_true_iff in Hs as [Hc Hs].
    apply negb_true_iff in Hc. rewrite Hc.
    destruct sep; [by apply IH | constructor; [done | by apply IH]].
Qed.

Lemma split_W_word (s p : string) :
  p ∈ split_W s → string_forall is_word_char p = true.
Proof.
  intros Hp. revert p Hp. apply Forall_forall.
  apply split_W_from_forall; [done | apply string_forall_implb_refl].
Qed.

Lemma split_W_lower (s p : string) :
  p ∈ split_W (toLowerCase s) →
  string_forall (λ c, negb (is_upper_char c)) p = true.
Proof.
  intros Hp. revert p Hp. apply Forall_forall.
  apply split_W_from_forall; [done |].
  apply string_forall_implb_weaken, toLowerCase_not_upper.
Qed.

Section TokenizerProperties.

Variable phraseMap : list (string * string).
Variable normalizationDictionary : gmap string string.
Variable replacePhrase : string → string → string → string.

(** X1.  The tokens of a text are the words of the lower-cased text, each
    replaced by its dictionary entry when it has a non-empty one, without
    the empty ones and the stop words.  Every token is non-empty, is no
    stop word and comes from a piece of the split text: it is the
    dictionary entry of the piece, or the piece itself, which then has word
    characters only and no capital letter.  Conversely a piece without
    dictionary entry that is neither empty nor a stop word is a token, and
    so is the dictionary entry of a piece when it is neither empty nor a
    stop word.  The text, after the phrases are rewritten, is taken to be
    ASCII and to have no word that names a property of
    [Object.prototype]. *)
Theorem tokenize_tokens_clean (text : string) :
  string_forall is_ascii_char (applyPhraseMap phraseMap replacePhrase text) = true →
  (∀ piece,
     piece ∈ split_W (toLowerCase (applyPhraseMap phraseMap replacePhrase text)) →
     piece ∉ Object_prototype_keys) →
  (∀ t, t ∈ tokenize phraseMap normalizationDictionary replacePhrase text →
     t ≠ EmptyString
     ∧ (t ∉ STOP_WORDS)
     ∧ ∃ piece,
         piece ∈ split_W (toLowerCase (applyPhraseMap phraseMap replacePhrase text))
         ∧ (normalizationDictionary !! piece = Some t
            ∨ (t = piece
               ∧ string_forall is_word_char t = true
               ∧ string_forall (λ c, negb (is_upper_char c)) t = true)))
  ∧ (∀ piece,
       piece ∈ split_W (toLowerCase (applyPhraseMap phraseMap replacePhrase text)) →
       normalizationDictionary !! piece = None →
       piece ≠ EmptyString → piece ∉ STOP_WORDS →
       piece ∈ tokenize phraseMap normalizationDictionary replacePhrase text)
  ∧ (∀ piece t,
       piece ∈ split_W (toLowerCase (applyPhraseMap phraseMap replacePhrase text)) →
       normalizationDictionary !! piece = Some t →
       t ≠ EmptyString → t ∉ STOP_WORDS →
       t ∈ tokenize phraseMap normalizationDictionary replacePhrase text).
Proof.
  intros _ _. unfold tokenize. cbv zeta. split_and!.
  - intros t Ht.
    apply list_elem_of_filter in Ht as [[Hne Hstop] Ht].
    split; [done |]. split; [done |].
    apply list_elem_of_fmap in Ht as (p & -> & Hp).
    exists p. split; [done |]. unfold normalizeToken in *.
    destruct (normalizationDictionary !! p) as [v |] eqn:Hv; simpl in *.
    + destruct v as [|c v]; simpl in *; [| by left].
      right. split_and!; [done | by eapply split_W_word | by eapply split_W_lower].
    + right. split_and!; [done | by eapply split_W_word | by eapply split_W_lower].
  - intros piece Hp Hnone Hne Hstop.
    apply list_elem_of_filter. split; [done |].
    apply list_elem_of_fmap. exists piece. split; [| done].
    unfold normalizeToken. by rewrite Hnone.
  - intros piece t Hp Hsome Hne Hstop.
    apply list_elem_of_filter. split; [done |].
    apply list_elem_of_fmap. exists piece. split; [| done].
    unfold normalizeToken. rewrite Hsome. by destruct t.
Qed.

(** X2.  An ASCII text without any word character (blank, punctuation
    only) has no token, when no phrase is rewritten and the dictionary has
    no entry for the empty token. *)
Theorem tokenize_without_word_characters (text : string) :
  normalizationDictionary !! EmptyString = None →
  string_forall is_ascii_char text = true →
  string_forall (λ c, negb (is_word_char c)) text = true →
  tokenize [] normalizationDictionary replacePhrase text = [].
Proof.
  intros Hdict _ Htext. unfold tokenize, applyPhraseMap. simpl.
  rewrite <- toLowerCase_no_word in Htext.
  pose proof (split_W_from_no_word _ false Htext) as Hpieces.
  fold (split_W (toLowerCase text)) in Hpieces.
  induction Hpieces as [|p l -> _ IH]; simpl; [done |].
  rewrite filter_cons_False; [done |].
  unfold normalizeToken. rewrite Hdict. simpl. by intros [? _].
Qed.

(** X3.  Letter case does not matter to [tokenize] when no phrase is
    rewritten: a text and its lower-cased form have the same tokens. *)
Theorem tokenize_ignores_case (text : string) :
  tokenize [] normalizationDictionary replacePhrase (toLowerCase text)
  = tokenize [] normalizationDictionary replacePhrase text.
Proof.
  unfold tokenize, applyPhraseMap. simpl. by rewrite toLowerCase_idemp.
Qed.

End TokenizerProperties.

Lemma summary_pieces :
  split_W (toLowerCase (applyPhraseMap [] no_phrases "Login fails on the Mobile"))
  = ["login"; "fails"; "on"; "the"; "mobile"]%string.
Proof. reflexivity. Defined.

Lemma summary_pieces_not_inherited (piece : string) :
  piece ∈ split_W (toLowerCase (applyPhraseMap [] no_phrases
                                  "Login fails on the Mobile")) →
  piece ∉ Object_prototype_keys.
Proof.
  rewrite summary_pieces. unfold Object_prototype_keys.
  rewrite !elem_of_cons, !elem_of_nil.
  intros [-> | [-> | [-> | [-> | [-> | []]]]]] Hin;
    repeat (destruct Hin as [Hin | Hin]; [discriminate Hin |]); exact Hin.
Defined.

(** Instance of X1: the tokens of a summary. *)
Lemma tokenize_tokens_clean_witness :
  string_forall is_ascii_char
    (applyPhraseMap [] no_phrases "Login fails on the Mobile") = true
  ∧ (∀ piece,
       piece ∈ split_W (toLowerCase (applyPhraseMap [] no_phrases
                                       "Login fails on the Mobile")) →
       piece ∉ Object_prototype_keys)
  ∧ ("mobile"%string ∈ tokenize [] ∅ no_phrases "Login fails on the Mobile")
  ∧ ("the"%string ∉ tokenize [] ∅ no_phrases "Login fails on the Mobile")
  ∧ ∃ piece,
      piece ∈ split_W (toLowerCase (applyPhraseMap [] no_phrases
                                      "Login fails on the Mobile"))
      ∧ ((∅ : gmap string string) !! piece = Some "mobile"%string
         ∨ ("mobile"%string = piece
            ∧ string_forall is_word_char "mobile" = true
            ∧ string_forall (λ c, negb (is_upper_char c)) "mobile" = true)).
Proof.
  assert (H1 : string_forall is_ascii_char
                 (applyPhraseMap [] no_phrases "Login fails on the Mobile") = true)
    by reflexivity.
  pose proof (tokenize_tokens_clean [] ∅ no_phrases "Login fails on the Mobile"
                H1 summary_pieces_not_inherited) as (Htoken & Hkept & _).
  assert (Hin : "mobile"%string
                ∈ tokenize [] ∅ no_phrases "Login fails on the Mobile").
  { apply Hkept.
    - rewrite summary_pieces. do 4 right. left.
    - reflexivity.
    - discriminate.
    - unfold STOP_WORDS. rewrite !elem_of_cons, !elem_of_nil.
      intros Hin. repeat (destruct Hin as [Hin | Hin]; [discriminate Hin |]).
      exact Hin. }
  split; [exact H1 |]. split; [exact summary_pieces_not_inherited |].
  split; [exact Hin |]. split.
  - intros Hthe. destruct (Htoken _ Hthe) as (_ & Hstop & _). apply Hstop.
    unfold STOP_WORDS. left.
  - destruct (Htoken _ Hin) as (_ & _ & Hpiece). exact Hpiece.
Defined.

(** Instance of X2: a text of punctuation and blanks. *)
Lemma tokenize_without_word_characters_witness :
  (∅ : gmap string string) !! EmptyString = None
  ∧ string_forall is_ascii_char " -- ... !" = true
  ∧ string_forall (λ c, negb (is_word_char c)) " -- ... !" = true
  ∧ tokenize [] ∅ no_phrases " -- ... !" = [].
Proof.
  assert (H1 : (∅ : gmap string string) !! EmptyString = None) by reflexivity.
  assert (H2 : string_forall is_ascii_char " -- ... !" = true) by reflexivity.
  assert (H3 : string_forall (λ c, negb (is_word_char c)) " -- ... !" = true)
    by reflexivity.
  split; [exact H1 |]. split; [exact H2 |]. split; [exact H3 |].
  exact (tokenize_without_word_characters ∅ no_phrases " -- ... !" H1 H2 H3).
Defined.

(** ** Document frequencies *)

Lemma computeDocumentFrequencies_loop_is_Some (documents : list (list string))
  (df : gmap string nat) (t : string) :
  is_Some
    (foldl (λ df tokens,
       foldl (λ df token, <[token := (default 0 (df !! token) + 1)%nat]> df)
         df (SetOf tokens)) df documents !! t)
  ↔ is_Some (df !! t) ∨ ∃ tokens, tokens ∈ documents ∧ t ∈ tokens.
Proof.
  revert df. induction documents as [|d documents IH]; intros df; simpl.
  - split; [auto | intros [? | (? & []%elem_of_nil & _)]; done].
  - rewrite IH, count_loop_is_Some, elem_of_SetOf. split.
    + intros [[? | ?] | (d' & ? & ?)]; [by left | right | right].
      * exists d. split; [left | done].
      * exists d'. split; [by right | done].
    + intros [? | (d' & [-> | ?]%elem_of_cons & ?)]; [by do 2 left | |].
      * left. by right.
      * right. by exists d'.
Qed.

Lemma documentsWith_zero (t : string) (documents : list (list string)) :
  documentsWith t documents = 0%nat ↔ ∀ tokens, tokens ∈ documents → t ∉ tokens.
Proof.
  unfold documentsWith. rewrite length_zero_iff_nil. split.
  - intros Hnil d Hd Ht.
    assert (Hin : d ∈ filter (λ tokens, t ∈ tokens) documents)
      by by apply list_elem_of_filter.
    rewrite Hnil in Hin. by apply elem_of_nil in Hin.
  - intros Hno. apply elem_of_nil_inv. intros d [Ht Hd]%list_elem_of_filter.
    by apply (Hno d).
Qed.

(** The whole table: a token has an entry exactly when some document
    contains it, and the entry is the number of such documents. *)
Lemma computeDocumentFrequencies_table (documents : list (list string)) (t : string) :
  computeDocumentFrequencies documents !! t
  = if decide (documentsWith t documents = 0%nat) then None
    else Some (documentsWith t documents).
Proof.
  pose proof (computeDocumentFrequencies_lookup documents t) as Hd.
  pose proof (computeDocumentFrequencies_loop_is_Some documents ∅ t) as Hs.
  fold (computeDocumentFrequencies documents) in Hs. rewrite lookup_empty in Hs.
  case_decide as Hz.
  - apply eq_None_not_Some. rewrite Hs. intros [[? ?] | (d & Hd' & Ht)]; [done |].
    by apply (proj1 (documentsWith_zero t documents) Hz d).
  - destruct (computeDocumentFrequencies documents !! t) as [c |] eqn:E.
    + simpl in Hd. by rewrite Hd.
    + simpl in Hd. congruence.
Qed.

Lemma documentsWith_same_tokens (t : string) (documents documents' : list (list string)) :
  Forall2 (λ d d', ∀ x, x ∈ d ↔ x ∈ d') documents documents' →
  documentsWith t documents = documentsWith t documents'.
Proof.
  unfold documentsWith. induction 1 as [|d d' l l' Hd _ IH]; [done |].
  destruct (decide (t ∈ d)) as [Ht | Ht].
  - rewrite !filter_cons_True by (done || by apply Hd). simpl. by rewrite IH.
  - rewrite !filter_cons_False by (done || by rewrite <- Hd). done.
Qed.

(** X4.  [computeDocumentFrequencies] counts documents: a token that some
    document contains is mapped to the number of documents containing it,
    which lies between 1 and the number of documents however often the
    token is repeated inside a document; any other token has no entry. *)
Theorem document_frequency_counts_documents (documents : list (list string)) :
  (∀ t tokens, tokens ∈ documents → t ∈ tokens →
     computeDocumentFrequencies documents !! t = Some (documentsWith t documents)
     ∧ (1 ≤ documentsWith t documents ≤ length documents)%nat)
  ∧ (∀ t, (∀ tokens, tokens ∈ documents → t ∉ tokens) →
       computeDocumentFrequencies documents !! t = None).
Proof.
  split.
  - intros t d Hd Ht.
    pose proof (documentsWith_bounds t documents d Hd Ht) as Hb.
    split; [| done].
    rewrite computeDocumentFrequencies_table, decide_False; [done | lia].
  - intros t Hno. rewrite computeDocumentFrequencies_table, decide_True; [done |].
    by apply documentsWith_zero.
Qed.

(** Instance of X4: "login" occurs three times, in two of three documents. *)
Lemma document_frequency_counts_documents_witness :
  (["login"; "login"]%string
     ∈ [["login"; "login"]; ["fails"]; ["login"; "app"]]%string)
  ∧ ("login"%string ∈ ["login"; "login"]%string)
  ∧ computeDocumentFrequencies
      [["login"; "login"]; ["fails"]; ["login"; "app"]]%string !! "login"%string
    = Some (documentsWith "login"
              [["login"; "login"]; ["fails"]; ["login"; "app"]]%string)
  ∧ (1 ≤ documentsWith "login"
            [["login"; "login"]; ["fails"]; ["login"; "app"]]%string
       ≤ length [["login"; "login"]; ["fails"]; ["login"; "app"]]%string)%nat.
Proof.
  assert (H1 : ["login"; "login"]%string
               ∈ [["login"; "login"]; ["fails"]; ["login"; "app"]]%string) by left.
  assert (H2 : "login"%string ∈ ["login"; "login"]%string) by left.
  split; [exact H1 |]. split; [exact H2 |].
  exact (proj1 (document_frequency_counts_documents
                  [["login"; "login"]; ["fails"]; ["login"; "app"]]%string)
           "login"%string ["login"; "login"]%string H1 H2).
Defined.

Lemma computeDocumentFrequencies_Permutation (documents documents' : list (list string)) :
  documents ≡ₚ documents' →
  computeDocumentFrequencies documents = computeDocumentFrequencies documents'.
Proof.
  intros H. apply map_eq. intros t. rewrite !computeDocumentFrequencies_table.
  assert (Hsame : documentsWith t documents = documentsWith t documents')
    by (unfold documentsWith; apply Permutation_length;
        by apply filter_Permutation).
  by rewrite Hsame.
Qed.

(** X5.  The document frequencies depend only on which tokens each
    document contains: neither the order of the documents nor the order or
    repetition of tokens inside a document changes the table. *)
Theorem document_frequency_ignores_order (documents documents' : list (list string)) :
  (documents ≡ₚ documents' →
     computeDocumentFrequencies documents = computeDocumentFrequencies documents')
  ∧ (Forall2 (λ d d', ∀ x, x ∈ d ↔ x ∈ d') documents documents' →
     computeDocumentFrequencies documents = computeDocumentFrequencies documents').
Proof.
  split; intros H; [by apply computeDocumentFrequencies_Permutation |].
  apply map_eq. intros t. rewrite !computeDocumentFrequencies_table.
  by rewrite (documentsWith_same_tokens t _ _ H).
Qed.

(** Instance of X5: two documents swapped. *)
Lemma document_frequency_ignores_order_witness :
  [["login"; "fails"]; ["app"]]%string ≡ₚ [["app"]; ["login"; "fails"]]%string
  ∧ computeDocumentFrequencies [["login"; "fails"]; ["app"]]%string
    = computeDocumentFrequencies [["app"]; ["login"; "fails"]]%string.
Proof.
  assert (H : [["login"; "fails"]; ["app"]]%string
              ≡ₚ [["app"]; ["login"; "fails"]]%string) by apply Permutation_swap.
  split; [exact H |].
  exact (proj1 (document_frequency_ignores_order _ _) H).
Defined.

(** ** TF-IDF weights within a corpus *)

Lemma ln_monotone (x y : R) : 0 < x → x <= y → ln x <= ln y.
Proof.
  intros Hx [Hlt | <-]; [| lra]. by apply Rlt_le, ln_increasing.
Qed.

Lemma occurrences_le_length (t : string) (tokens : list string) :
  (occurrences t tokens ≤ length tokens)%nat.
Proof. apply length_filter. Qed.

Lemma magnitude_all_zero (a : gmap string R) :
  (∀ k v, a !! k = Some v → v = 0) → magnitude a = 0.
Proof.
  intros Hz. unfold magnitude.
  rewrite (Rsum_map_ext _ (λ _, 0)), Rsum_map_zero; [apply sqrt_0 |].
  intros [k v] Hkv. apply elem_of_map_to_list in Hkv.
  rewrite (Hz k v Hkv). lra.
Qed.

(** X6.  The sign of a TF-IDF weight is decided by the document frequency:
    the weight is 0 when the token occurs in as many documents as
    [totalDocs], positive when it occurs in fewer, and negative when the
    frequency table reports more documents than [totalDocs]. *)
Theorem tfidf_weight_sign (tokens : list string) (df : gmap string nat)
  (totalDocs : nat) (t : string) :
  t ∈ tokens → (0 < totalDocs)%nat →
  ∃ v, computeTfIdf tokens df totalDocs !! t = Some v
       ∧ (or_count (df !! t) 1 = totalDocs → v = 0)
       ∧ ((or_count (df !! t) 1 < totalDocs)%nat → 0 < v)
       ∧ ((totalDocs < or_count (df !! t) 1)%nat → v < 0).
Proof.
  intros Ht HN. rewrite computeTfIdf_lookup, decide_True by done.
  eexists. split; [done |].
  set (d := or_count (df !! t) 1).
  assert (Hd : (1 ≤ d)%nat) by (unfold d; rewrite or_count_max; lia).
  assert (Htf : 0 < INR (occurrences t tokens) / INR (length tokens)).
  { apply Rdiv_lt_0_compat; apply lt_0_INR.
    - unfold occurrences. destruct (filter _ tokens) eqn:E; [| simpl; lia].
      exfalso. assert (Hin : t ∈ filter (λ x, x = t) tokens)
        by by apply list_elem_of_filter.
      rewrite E in Hin. by apply elem_of_nil in Hin.
    - destruct tokens; [by apply elem_of_nil in Ht | simpl; lia]. }
  assert (HdR : 0 < INR d) by (apply lt_0_INR; lia).
  assert (HNR : 0 < INR totalDocs) by by apply lt_0_INR.
  assert (Hinv : 0 < / INR d) by by apply Rinv_0_lt_compat.
  assert (Hone : INR d * / INR d = 1) by (apply Rinv_r; lra).
  split_and!.
  - intros <-. unfold Rdiv at 2. rewrite Hone, ln_1. lra.
  - intros Hlt. apply lt_INR in Hlt.
    apply Rmult_lt_0_compat; [done |]. rewrite <- ln_1.
    apply ln_increasing; [lra |]. unfold Rdiv. nra.
  - intros Hgt. apply lt_INR in Hgt.
    assert (Hneg : ln (INR totalDocs / INR d) < 0).
    { rewrite <- ln_1. apply ln_increasing; unfold Rdiv; nra. }
    nra.
Qed.

(** Instance of X6: "login" is in both of two documents, "app" in one. *)
Lemma tfidf_weight_sign_witness :
  ("app"%string ∈ ["login"; "app"]%string)
  ∧ (0 < 2)%nat
  ∧ ∃ v, computeTfIdf ["login"; "app"]%string
           {["login"%string := 2%nat; "app"%string := 1%nat]} 2 !! "app"%string
         = Some v
         ∧ (or_count (({["login"%string := 2%nat; "app"%string := 1%nat]}
                       : gmap string nat) !! "app"%string) 1 = 2%nat → v = 0)
         ∧ ((or_count (({["login"%string := 2%nat; "app"%string := 1%nat]}
                        : gmap string nat) !! "app"%string) 1 < 2)%nat → 0 < v)
         ∧ ((2 < or_count (({["login"%string := 2%nat; "app"%string := 1%nat]}
                            : gmap string nat) !! "app"%string) 1)%nat → v < 0).
Proof.
  assert (H1 : "app"%string ∈ ["login"; "app"]%string) by (right; left).
  assert (H2 : (0 < 2)%nat) by lia.
  split; [exact H1 |]. split; [exact H2 |].
  exact (tfidf_weight_sign ["login"; "app"]%string
           {["login"%string := 2%nat; "app"%string := 1%nat]} 2 "app" H1 H2).
Defined.

Section WeightProperties.

Variable weights : Weights.
Variable phraseMap : list (string * string).
Variable normalizationDictionary : gmap string string.
Variable replacePhrase : string → string → string → string.

Local Abbreviation tok := (tokenize phraseMap normalizationDictionary replacePhrase).
Local Abbreviation vector := (fieldVector phraseMap normalizationDictionary replacePhrase).

(** The weight of every token of a document of the corpus, with the
    document frequency written out. *)
Lemma fieldVector_lookup (field : Issue.t → string) (all : list Issue.t)
  (doc : Issue.t) (t : string) :
  doc ∈ all →
  vector field all doc !! t
  = if decide (t ∈ tok (field doc))
    then Some (INR (occurrences t (tok (field doc)))
               / INR (length (tok (field doc)))
               * ln (INR (length all)
                     / INR (documentsWith t (map (λ d, tok (field d)) all))))
    else None.
Proof.
  intros Hdoc. unfold fieldVector. rewrite computeTfIdf_lookup.
  case_decide as Ht; [| done].
  rewrite or_count_max, computeDocumentFrequencies_lookup.
  assert (Hb : (1 ≤ documentsWith t (map (λ d, tok (field d)) all)
                ≤ length (map (λ d, tok (field d)) all))%nat).
  { apply (documentsWith_bounds t _ (tok (field doc))); [| done].
    apply list_elem_of_fmap. by exists doc. }
  by rewrite Nat.max_l by lia.
Qed.

(** X7.  Within its corpus every TF-IDF weight lies between 0 and
    [ln (number of documents)]. *)
Theorem tfidf_weight_bounds (field : Issue.t → string) (all : list Issue.t)
  (doc : Issue.t) (t : string) (v : R) :
  doc ∈ all →
  vector field all doc !! t = Some v →
  0 <= v <= ln (INR (length all)).
Proof.
  intros Hdoc Hv. split; [by apply (fieldVector_nonneg phraseMap normalizationDictionary
                        replacePhrase field all doc Hdoc t v) |].
  rewrite (fieldVector_lookup _ _ _ _ Hdoc) in Hv.
  case_decide as Ht; [| done]. injection Hv as <-.
  set (toks := tok (field doc)) in *.
  set (docs := map (λ d, tok (field d)) all).
  assert (Hb : (1 ≤ documentsWith t docs ≤ length docs)%nat).
  { apply (documentsWith_bounds t _ toks); [| done].
    apply list_elem_of_fmap. by exists doc. }
  assert (Hlen_docs : length docs = length all) by apply length_map.
  rewrite Hlen_docs in Hb. destruct Hb as [Hd1 HdN].
  pose proof (ratio_ge_1 _ _ (conj Hd1 HdN)) as Hratio.
  assert (Hlen : (1 ≤ length toks)%nat)
    by (destruct toks; [by apply elem_of_nil in Ht | simpl; lia]).
  assert (Htf : 0 <= INR (occurrences t toks) / INR (length toks) <= 1).
  { pose proof (occurrences_le_length t toks) as Hle.
    apply le_INR in Hle, Hlen. simpl in Hlen.
    pose proof (pos_INR (occurrences t toks)).
    assert (Hinv : 0 < / INR (length toks)) by (apply Rinv_0_lt_compat; lra).
    assert (Hone : INR (length toks) * / INR (length toks) = 1)
      by (apply Rinv_r; lra).
    unfold Rdiv. split; nra. }
  assert (Hidf : 0 <= ln (INR (length all) / INR (documentsWith t docs))
                 <= ln (INR (length all))).
  { split; [by apply ln_nonneg |]. apply ln_monotone; [lra |].
    apply le_INR in Hd1. simpl in Hd1.
    assert (HN : 0 <= INR (length all)) by apply pos_INR.
    assert (Hinv : 0 < / INR (documentsWith t docs))
      by (apply Rinv_0_lt_compat; lra).
    assert (Hone : INR (documentsWith t docs) * / INR (documentsWith t docs) = 1)
      by (apply Rinv_r; lra).
    unfold Rdiv. nra. }
  nra.
Qed.

(** A token that every document of the corpus contains has weight 0: its
    document frequency equals the number of documents and [ln 1 = 0]. *)
Lemma fieldVector_ubiquitous (field : Issue.t → string)
  (all : list Issue.t) (doc : Issue.t) (t : string) :
  doc ∈ all →
  (∀ d, d ∈ all → t ∈ tok (field d)) →
  vector field all doc !! t = Some 0.
Proof.
  intros Hdoc Hall. rewrite (fieldVector_lookup _ _ _ _ Hdoc).
  rewrite decide_True by by apply Hall. f_equal.
  assert (Hcount : documentsWith t (map (λ d, tok (field d)) all) = length all).
  { unfold documentsWith. clear Hdoc.
    induction all as [|d l IH]; [done |]. simpl.
    rewrite filter_cons_True by (apply Hall; left). simpl.
    rewrite IH; [done |]. intros d' Hd'. apply Hall. by right. }
  rewrite Hcount.
  assert (HN : 0 < INR (length all)).
  { apply lt_0_INR. destruct all; [by apply elem_of_nil in Hdoc | simpl; lia]. }
  unfold Rdiv at 2. rewrite Rinv_r by lra. rewrite ln_1. lra.
Qed.

(** A query whose tokens all occur in every candidate has the zero
    vector. *)
Lemma covered_query_vector_zero (field : Issue.t → string) (current : Issue.t)
  (others : list Issue.t) :
  (∀ t d, t ∈ tok (field current) → d ∈ others → t ∈ tok (field d)) →
  magnitude (vector field (current :: others) current) = 0.
Proof.
  intros Hcov. apply magnitude_all_zero. intros k v Hkv.
  assert (Hcur : current ∈ current :: others) by left.
  assert (Hk : k ∈ tok (field current)).
  { rewrite (fieldVector_lookup _ _ _ _ Hcur) in Hkv. by case_decide. }
  assert (H0 : vector field (current :: others) current !! k = Some 0).
  { apply fieldVector_ubiquitous; [done |].
    intros d [-> | Hd]%elem_of_cons; [done | by apply Hcov]. }
  congruence.
Qed.

(** X8.  When every token of the query's summary occurs in the summary of
    every candidate, the summary cosine is 0 for every candidate, however
    similar the texts are; the same holds for the descriptions.  With both,
    every lexical score is 0. *)
Theorem covered_query_scores_zero (current : Issue.t) (others : list Issue.t) :
  ((∀ t d, t ∈ tok (Issue.summary current) → d ∈ others →
           t ∈ tok (Issue.summary d)) →
   ∀ candidate,
     summaryCosine phraseMap normalizationDictionary replacePhrase
       current others candidate = 0)
  ∧ ((∀ t d, t ∈ tok (Issue.description current) → d ∈ others →
             t ∈ tok (Issue.description d)) →
     ∀ candidate,
       descriptionCosine phraseMap normalizationDictionary replacePhrase
         current others candidate = 0)
  ∧ ((∀ t d, t ∈ tok (Issue.summary current) → d ∈ others →
             t ∈ tok (Issue.summary d)) →
     (∀ t d, t ∈ tok (Issue.description current) → d ∈ others →
             t ∈ tok (Issue.description d)) →
     ∀ e, e ∈ calculateTFIDFCosineSimilarity weights phraseMap
                normalizationDictionary replacePhrase current others →
          score e = 0).
Proof.
  assert (Hzero : ∀ field candidate,
    (∀ t d, t ∈ tok (field current) → d ∈ others → t ∈ tok (field d)) →
    cosineSimilarity (vector field (current :: others) current)
      (vector field (current :: others) candidate) = 0).
  { intros field candidate Hcov.
    rewrite cosineSimilarity_eq, dotProduct_zero; [unfold Rdiv; lra |].
    rewrite covered_query_vector_zero by done. lra. }
  split_and!.
  - intros Hcov candidate. by apply Hzero.
  - intros Hcov candidate. by apply Hzero.
  - intros Hs Hd e He. apply list_elem_of_lookup in He as [i Hi].
    destruct (others !! i) as [candidate |] eqn:Hc.
    + rewrite (calculateTFIDFCosineSimilarity_lookup _ _ _ _ _ _ _ _ Hc) in Hi.
      injection Hi as <-. simpl. unfold summaryCosine, descriptionCosine.
      rewrite !Hzero by done. lra.
    + unfold calculateTFIDFCosineSimilarity in Hi.
      rewrite list_lookup_imap, Hc in Hi. done.
Qed.

End WeightProperties.

(** The query and its first candidate share "login", "fails" and "mobile". *)
Lemma query_summary_covered (t : string) (d : Issue.t) :
  t ∈ tokenize [] ∅ no_phrases (Issue.summary (currentOf queryIssue)) →
  d ∈ [Issue.mk "PRJ-2" "login fails on mobile app" EmptyString] →
  t ∈ tokenize [] ∅ no_phrases (Issue.summary d).
Proof.
  intros Ht Hd. apply list_elem_of_singleton in Hd. subst d.
  change (tokenize [] ∅ no_phrases (Issue.summary (currentOf queryIssue)))
    with ["login"; "fails"; "mobile"]%string in Ht.
  change (tokenize [] ∅ no_phrases
            (Issue.summary (Issue.mk "PRJ-2" "login fails on mobile app" EmptyString)))
    with ["login"; "fails"; "mobile"; "app"]%string.
  repeat (apply elem_of_cons in Ht as [-> | Ht];
          [by repeat (left || right) |]).
  by apply elem_of_nil in Ht.
Defined.

Lemma query_login_weight :
  fieldVector [] ∅ no_phrases Issue.summary
    [currentOf queryIssue; Issue.mk "PRJ-2" "login fails on mobile app" EmptyString]
    (currentOf queryIssue) !! "login"%string = Some 0.
Proof.
  apply fieldVector_ubiquitous; [left |].
  intros d [-> | Hd]%elem_of_cons; [by left |].
  apply query_summary_covered; [by left | done].
Defined.

(** Instance of X7: the weight of "login" in the query's summary. *)
Lemma tfidf_weight_bounds_witness :
  (currentOf queryIssue
     ∈ [currentOf queryIssue;
        Issue.mk "PRJ-2" "login fails on mobile app" EmptyString])
  ∧ fieldVector [] ∅ no_phrases Issue.summary
      [currentOf queryIssue;
       Issue.mk "PRJ-2" "login fails on mobile app" EmptyString]
      (currentOf queryIssue) !! "login"%string = Some 0
  ∧ 0 <= 0 <= ln (INR (length
                         [currentOf queryIssue;
                          Issue.mk "PRJ-2" "login fails on mobile app" EmptyString])).
Proof.
  assert (H1 : currentOf queryIssue
               ∈ [currentOf queryIssue;
                  Issue.mk "PRJ-2" "login fails on mobile app" EmptyString])
    by left.
  split; [exact H1 |]. split; [exact query_login_weight |].
  exact (tfidf_weight_bounds [] ∅ no_phrases Issue.summary _ _ "login" 0 H1
           query_login_weight).
Defined.

(** Instance of X8: the only candidate repeats every word of the query's
    summary and adds one; the summary cosine is 0. *)
Lemma covered_query_scores_zero_witness :
  (∀ t d,
     t ∈ tokenize [] ∅ no_phrases (Issue.summary (currentOf queryIssue)) →
     d ∈ [Issue.mk "PRJ-2" "login fails on mobile app" EmptyString] →
     t ∈ tokenize [] ∅ no_phrases (Issue.summary d))
  ∧ ∀ candidate,
      summaryCosine [] ∅ no_phrases (currentOf queryIssue)
        [Issue.mk "PRJ-2" "login fails on mobile app" EmptyString] candidate = 0.
Proof.
  split; [exact query_summary_covered |].
  exact (proj1 (covered_query_scores_zero config [] ∅ no_phrases
                  (currentOf queryIssue)
                  [Issue.mk "PRJ-2" "login fails on mobile app" EmptyString])
           query_summary_covered).
Defined.

(** ** Lexical scores of the candidates *)

Section LexicalScoreProperties.

Variable weights : Weights.
Variable phraseMap : list (string * string).
Variable normalizationDictionary : gmap string string.
Variable replacePhrase : string → string → string → string.

Local Abbreviation lexical :=
  (calculateTFIDFCosineSimilarity weights phraseMap normalizationDictionary
     replacePhrase).
Local Abbreviation sCos :=
  (summaryCosine phraseMap normalizationDictionary replacePhrase).
Local Abbreviation dCos :=
  (descriptionCosine phraseMap normalizationDictionary replacePhrase).

(** The loop over the candidates as a map over them. *)
Lemma calculateTFIDFCosineSimilarity_map (current : Issue.t) (others : list Issue.t) :
  lexical current others
  = map (λ candidate,
      {| key := Issue.key candidate;
         score := sCos current others candidate * SUMMARY_WEIGHT weights
                  + dCos current others candidate * DESCRIPTION_WEIGHT weights |})
      others.
Proof.
  apply list_eq. intros i. rewrite list_lookup_fmap.
  destruct (others !! i) as [candidate |] eqn:Hc.
  - by rewrite (calculateTFIDFCosineSimilarity_lookup _ _ _ _ _ _ _ _ Hc).
  - unfold calculateTFIDFCosineSimilarity.
    by rewrite list_lookup_imap, Hc.
Qed.

(** X13.  [calculateTFIDFCosineSimilarity] returns one entry per candidate,
    at the candidate's position and with its key (none for an empty
    candidate list).  The score of the entry is the summary cosine times
    [SUMMARY_WEIGHT] plus the description cosine times
    [DESCRIPTION_WEIGHT]; neither cosine is negative, and with non-negative
    field weights no lexical score is. *)
Theorem lexical_scores_per_candidate (current : Issue.t) (others : list Issue.t) :
  map key (lexical current others) = map Issue.key others
  ∧ (∀ i candidate, others !! i = Some candidate →
       ∃ e, lexical current others !! i = Some e
            ∧ key e = Issue.key candidate
            ∧ score e
              = sCos current others candidate * SUMMARY_WEIGHT weights
                + dCos current others candidate * DESCRIPTION_WEIGHT weights
            ∧ 0 <= sCos current others candidate
            ∧ 0 <= dCos current others candidate)
  ∧ (0 <= SUMMARY_WEIGHT weights → 0 <= DESCRIPTION_WEIGHT weights →
     ∀ e, e ∈ lexical current others → 0 <= score e).
Proof.
  assert (Hcos : ∀ field candidate, candidate ∈ others →
    0 <= cosineSimilarity
           (fieldVector phraseMap normalizationDictionary replacePhrase field
              (current :: others) current)
           (fieldVector phraseMap normalizationDictionary replacePhrase field
              (current :: others) candidate)).
  { intros field candidate Hc.
    apply cosineSimilarity_nonneg; apply fieldVector_nonneg; [left | by right]. }
  rewrite calculateTFIDFCosineSimilarity_map. split_and!.
  - rewrite map_map. by apply map_ext.
  - intros i candidate Hc. eexists. rewrite list_lookup_fmap, Hc.
    apply list_elem_of_lookup_2 in Hc.
    split_and!; [done | done | done | by apply Hcos | by apply Hcos].
  - intros Hs Hd e He. apply list_elem_of_fmap in He as (candidate & -> & Hc).
    simpl. unfold summaryCosine, descriptionCosine.
    pose proof (Hcos Issue.summary candidate Hc).
    pose proof (Hcos Issue.description candidate Hc).
    nra.
Qed.



End LexicalScoreProperties.

(** Instance of X13 at the shipped field weights 0.8 and 0.2. *)
Lemma lexical_scores_per_candidate_witness :
  0 <= SUMMARY_WEIGHT config
  ∧ 0 <= DESCRIPTION_WEIGHT config
  ∧ map key (calculateTFIDFCosineSimilarity config [] ∅ no_phrases
               (currentOf queryIssue) (othersOf candidateIssues))
    = map Issue.key (othersOf candidateIssues)
  ∧ ∀ e, e ∈ calculateTFIDFCosineSimilarity config [] ∅ no_phrases
               (currentOf queryIssue) (othersOf candidateIssues) →
         0 <= score e.
Proof.
  assert (H1 : 0 <= SUMMARY_WEIGHT config) by (unfold SUMMARY_WEIGHT; simpl; lra).
  assert (H2 : 0 <= DESCRIPTION_WEIGHT config)
    by (unfold DESCRIPTION_WEIGHT; simpl; lra).
  split; [exact H1 |]. split; [exact H2 |].
  pose proof (lexical_scores_per_candidate config [] ∅ no_phrases
                (currentOf queryIssue) (othersOf candidateIssues))
    as (Hkeys & _ & Hpos).
  split; [exact Hkeys | exact (Hpos H1 H2)].
Defined.


(** ** The adapter's map of scores *)

(** Inserting the entries one after the other leaves, for every key, the
    score of the last entry that carries it. *)
Lemma insert_scores_lookup (entries : list Scored) (m : gmap string R) (k : string) :
  foldl (λ map e, <[key e := score e]> map) m entries !! k
  = match last (filter (λ e, key e = k) entries) with
    | Some e => Some (score e)
    | None => m !! k
    end.
Proof.
  revert m. induction entries as [|e entries IH] using rev_ind; intros m.
  - done.
  - rewrite foldl_app, filter_app. simpl.
    destruct (decide (key e = k)) as [<- | Hne].
    + rewrite filter_cons_True by done. rewrite filter_nil, last_snoc.
      apply lookup_insert_eq.
    + rewrite filter_cons_False by done. rewrite filter_nil, app_nil_r.
      rewrite lookup_insert_ne by done. apply IH.
Qed.

(** X15.  A well-formed answer of the provider becomes the map of its
    scores: a key is mapped to the score of the last item that carries it,
    so a repeated key keeps its last score, and a key the answer does not
    mention has no entry. *)
Theorem adapter_keeps_last_score (network : nat → Payload.t → Completion Response)
  (current : Field.t) (others : list Field.t) (n : nat) (res : Response)
  (entries : list Scored) :
  network n (Payload.mk current others) = Normal res →
  ok res = true →
  json res = Normal (JArray (map Some entries)) →
  ∃ m, fetchSemanticSimilarity network current others n = (Normal m, S n)
       ∧ (∀ k, m !! k = score <$> last (filter (λ e, key e = k) entries))
       ∧ (∀ k, k ∉ map key entries → m !! k = None).
Proof.
  intros Hres Hok Hjson. eexists.
  split; [by eapply fetchSemanticSimilarity_success |].
  assert (Hlookup : ∀ k,
    foldl (λ map e, <[key e := score e]> map) (∅ : gmap string R) entries !! k
    = score <$> last (filter (λ e, key e = k) entries)).
  { intros k. rewrite insert_scores_lookup, lookup_empty.
    by destruct (last _). }
  split; [done |].
  intros k Hk. rewrite Hlookup.
  assert (Hnil : filter (λ e, key e = k) entries = []).
  { apply elem_of_nil_inv. intros e [He Hin]%list_elem_of_filter.
    apply Hk. apply list_elem_of_fmap. by exists e. }
  by rewrite Hnil.
Qed.

(** Instance of X15: PRJ-2 is scored twice, the second score stays. *)
Lemma adapter_keeps_last_score_witness :
  provider_repeats 0%nat (Payload.mk (Field.mk "PRJ-1" "login") [])
  = Normal {|
      ok := true;
      status := 200;
      text := Normal EmptyString;
      json := Normal (JArray (map Some [{| key := "PRJ-2"; score := 9 / 10 |};
                                        {| key := "PRJ-2"; score := 4 / 10 |}]))
    |}
  ∧ ∃ m, fetchSemanticSimilarity provider_repeats (Field.mk "PRJ-1" "login") []
           0%nat = (Normal m, 1%nat)
         ∧ m !! "PRJ-2"%string = Some (4 / 10).
Proof.
  split; [reflexivity |].
  destruct (adapter_keeps_last_score provider_repeats (Field.mk "PRJ-1" "login")
              [] 0%nat _ [{| key := "PRJ-2"; score := 9 / 10 |};
                          {| key := "PRJ-2"; score := 4 / 10 |}]
              eq_refl eq_refl eq_refl) as (m & Hm & Hlast & _).
  exists m. split; [exact Hm |]. rewrite Hlast. reflexivity.
Defined.

(** ** Semantic scores of the candidates *)

Section SemanticScoreProperties.

Variable weights : Weights.
Variable network : nat → Payload.t → Completion Response.

(** X16.  The semantic scores follow the candidates: one entry per
    candidate with its key, in candidate order, whatever keys the provider
    answered for; with field scores in [0, 1] and non-negative field weights
    every semantic score lies between 0 and
    [SUMMARY_WEIGHT + DESCRIPTION_WEIGHT]. *)
Theorem semantic_scores_bounded (current : Issue.t) (others : list Issue.t)
  (n : nat) (summaryScores descriptionScores : gmap string R) :
  0 <= SUMMARY_WEIGHT weights → 0 <= DESCRIPTION_WEIGHT weights →
  fetchSemanticSimilarity network
    (Field.mk (Issue.key current) (Issue.summary current))
    (map (λ issue, Field.mk (Issue.key issue) (Issue.summary issue)) others) n
  = (Normal summaryScores, S n) →
  fetchSemanticSimilarity network
    (Field.mk (Issue.key current) (Issue.description current))
    (map (λ issue, Field.mk (Issue.key issue) (Issue.description issue)) others)
    (S n)
  = (Normal descriptionScores, S (S n)) →
  map_Forall (λ _ v, 0 <= v <= 1) summaryScores →
  map_Forall (λ _ v, 0 <= v <= 1) descriptionScores →
  ∃ scored,
    calculateSemanticSimilarity weights network current others n
    = (Normal scored, S (S n))
    ∧ map key scored = map Issue.key others
    ∧ ∀ e, e ∈ scored →
           0 <= score e <= SUMMARY_WEIGHT weights + DESCRIPTION_WEIGHT weights.
Proof.
  intros Hsw Hdw Hsm Hdm Hs01 Hd01. eexists.
  split; [by apply calculateSemanticSimilarity_eq |].
  split; [rewrite map_map; by apply map_ext |].
  intros e He. apply list_elem_of_fmap in He as (issue & -> & _). simpl.
  assert (Hs : 0 <= or_num (summaryScores !! Issue.key issue) 0 <= 1).
  { rewrite or_num_default. destruct (summaryScores !! _) as [v |] eqn:E; simpl;
      [by apply (Hs01 _ _ E) | lra]. }
  assert (Hd : 0 <= or_num (descriptionScores !! Issue.key issue) 0 <= 1).
  { rewrite or_num_default. destruct (descriptionScores !! _) as [v |] eqn:E; simpl;
      [by apply (Hd01 _ _ E) | lra]. }
  nra.
Qed.

End SemanticScoreProperties.

(** Instance of X16 with the provider that answers 0.9 and 0.4. *)
Lemma semantic_scores_bounded_witness :
  0 <= SUMMARY_WEIGHT config
  ∧ 0 <= DESCRIPTION_WEIGHT config
  ∧ map_Forall (λ _ v, 0 <= v <= 1) provider_scores
  ∧ ∃ scored,
      calculateSemanticSimilarity config provider_up (currentOf queryIssue)
        (othersOf candidateIssues) 0%nat = (Normal scored, 2%nat)
      ∧ map key scored = map Issue.key (othersOf candidateIssues)
      ∧ ∀ e, e ∈ scored →
             0 <= score e <= SUMMARY_WEIGHT config + DESCRIPTION_WEIGHT config.
Proof.
  assert (H1 : 0 <= SUMMARY_WEIGHT config) by (unfold SUMMARY_WEIGHT; simpl; lra).
  assert (H2 : 0 <= DESCRIPTION_WEIGHT config)
    by (unfold DESCRIPTION_WEIGHT; simpl; lra).
  split; [exact H1 |]. split; [exact H2 |]. split; [exact provider_scores_unit |].
  exact (semantic_scores_bounded config provider_up (currentOf queryIssue)
           (othersOf candidateIssues) 0%nat provider_scores provider_scores
           H1 H2 (provider_up_scores _ _ _) (provider_up_scores _ _ _)
           provider_scores_unit provider_scores_unit).
Defined.

(** ** Merging and boosting *)

Section MergeBoostProperties.

Variable weights : Weights.

(** X17.  Scores in [0, 1] stay in [0, 1] through the merge when the two
    merge weights are non-negative and sum to at most 1. *)
Theorem merged_scores_in_unit_interval (semanticScored tfidfScored : list Scored) :
  0 <= SEMANTIC_WEIGHT weights → 0 <= TFIDF_WEIGHT weights →
  SEMANTIC_WEIGHT weights + TFIDF_WEIGHT weights <= 1 →
  (∀ e, e ∈ semanticScored → 0 <= score e <= 1) →
  (∀ e, e ∈ tfidfScored → 0 <= score e <= 1) →
  ∀ m, m ∈ mergeSimilarityScores weights semanticScored tfidfScored →
       0 <= score m <= 1.
Proof.
  intros Hsw Htw Hsum Hsem Hlex m Hm.
  apply list_elem_of_lookup in Hm as [i Hi].
  destruct (semanticScored !! i) as [e |] eqn:He.
  - rewrite (mergeSimilarityScores_lookup _ _ _ _ _ He) in Hi.
    injection Hi as <-. simpl.
    assert (Hse : 0 <= score e <= 1)
      by (apply Hsem; by eapply list_elem_of_lookup_2).
    destruct (Rge_dec _ _); [done |].
    assert (Hl : 0 <= or_num (score <$> find_key (key e) tfidfScored) 0 <= 1).
    { rewrite or_num_default.
      destruct (find_key _ _) as [t |] eqn:E; simpl; [| lra].
      apply Hlex. by apply find_key_Some in E as [? _]. }
    nra.
  - unfold mergeSimilarityScores in Hi. by rewrite list_lookup_fmap, He in Hi.
Qed.

(** X18.  The merge is not monotone in the semantic score: a candidate
    just below the threshold whose blend exceeds the threshold is merged
    higher than a candidate that sits exactly on the threshold with the
    same lexical score. *)
Theorem merge_inverts_order_at_threshold (below lexical : R) (a b : string) :
  a ≠ b →
  below < SEMANTIC_THRESHOLD weights →
  SEMANTIC_THRESHOLD weights
  < below * SEMANTIC_WEIGHT weights + lexical * TFIDF_WEIGHT weights →
  ∃ ma mb,
    mergeSimilarityScores weights
      [{| key := a; score := below |};
       {| key := b; score := SEMANTIC_THRESHOLD weights |}]
      [{| key := a; score := lexical |}; {| key := b; score := lexical |}]
    = [{| key := a; score := ma |}; {| key := b; score := mb |}]
    ∧ mb = SEMANTIC_THRESHOLD weights
    ∧ mb < ma.
Proof.
  intros Hab Hbelow Hblend. unfold mergeSimilarityScores, find_key. simpl.
  rewrite String.eqb_refl.
  destruct (Rge_dec below _) as [Hge | _]; [lra |].
  destruct (Rge_dec (SEMANTIC_THRESHOLD weights) _) as [_ | Hlt]; [| lra].
  do 2 eexists. split; [reflexivity |]. split; [done |].
  change (score <$> Some {| key := a; score := lexical |}) with (Some lexical).
  by rewrite or_num_Some.
Qed.

(** X19.  With non-negative weights boosting never lowers a score and
    raises it by at most [MAX_BOOST]; keys and order are kept. *)
Theorem boost_raises_by_at_most_max (currentMetadata : Meta.t)
  (othersMetadata : list Meta.t) (baseScored : list Scored) :
  weights_nonneg weights →
  map key (applyBoostingLogic weights currentMetadata othersMetadata baseScored)
  = map key baseScored
  ∧ ∀ i e, baseScored !! i = Some e →
      ∃ out,
        applyBoostingLogic weights currentMetadata othersMetadata baseScored !! i
        = Some out
        ∧ key out = key e
        ∧ score e <= score out <= score e + MAX_BOOST weights.
Proof.
  intros Hw. rewrite applyBoostingLogic_eq. split.
  - rewrite map_map. by apply map_ext.
  - intros i e He. eexists. split; [by rewrite list_lookup_fmap, He |].
    split; [done |]. simpl.
    pose proof (candidateBoost_nonneg weights currentMetadata othersMetadata
                  (key e) Hw) as Hpos.
    assert (Hmax : candidateBoost weights currentMetadata othersMetadata (key e)
                   <= MAX_BOOST weights).
    { unfold candidateBoost. destruct (find_meta _ _); [apply Rmin_r |].
      unfold MAX_BOOST. apply Hw. }
    lra.
Qed.

Lemma overlap_comm (xs ys : list string) : overlap xs ys = overlap ys xs.
Proof.
  unfold overlap. f_equal. apply set_eq. intros z.
  rewrite !elem_of_intersection. tauto.
Qed.

Lemma overlap_same_elements (xs xs' ys ys' : list string) :
  (∀ x, x ∈ xs ↔ x ∈ xs') → (∀ y, y ∈ ys ↔ y ∈ ys') →
  overlap xs ys = overlap xs' ys'.
Proof.
  intros Hx Hy. unfold overlap. f_equal. apply set_eq. intros z.
  rewrite !elem_of_intersection, !elem_of_list_to_set. by rewrite Hx, Hy.
Qed.

(** X20.  The boost of a pair of issues is symmetric, and it depends on
    the labels and component names only as sets: order and repetition in
    the lists change nothing. *)
Theorem boost_depends_on_sets (query candidate : Meta.t) :
  boostFor weights query candidate = boostFor weights candidate query
  ∧ ∀ query',
      Meta.issuetype query' = Meta.issuetype query →
      (∀ x, x ∈ Meta.labels query' ↔ x ∈ Meta.labels query) →
      (∀ x, x ∈ map name (Meta.components query')
            ↔ x ∈ map name (Meta.components query)) →
      boostFor weights query' candidate = boostFor weights query candidate.
Proof.
  split.
  - rewrite !boostFor_capped. f_equal. unfold accumulatedBoost.
    rewrite (overlap_comm (Meta.labels query)),
      (overlap_comm (map name (Meta.components query))).
    do 2 f_equal. by repeat case_decide.
  - intros query' Ht Hl Hc. rewrite !boostFor_capped. f_equal.
    unfold accumulatedBoost. rewrite Ht.
    by rewrite (overlap_same_elements _ (Meta.labels query) _
                  (Meta.labels candidate) Hl (λ _, reflexivity _)),
      (overlap_same_elements _ (map name (Meta.components query)) _
         (map name (Meta.components candidate)) Hc (λ _, reflexivity _)).
Qed.

End MergeBoostProperties.

(** Instance of X17 at the shipped merge weights 0.8 and 0.2. *)
Lemma merged_scores_in_unit_interval_witness :
  0 <= SEMANTIC_WEIGHT config
  ∧ 0 <= TFIDF_WEIGHT config
  ∧ SEMANTIC_WEIGHT config + TFIDF_WEIGHT config <= 1
  ∧ (∀ e, e ∈ [{| key := "PRJ-2"; score := 5 / 10 |}] → 0 <= score e <= 1)
  ∧ (∀ e, e ∈ [{| key := "PRJ-2"; score := 1 |}] → 0 <= score e <= 1)
  ∧ ∀ m, m ∈ mergeSimilarityScores config [{| key := "PRJ-2"; score := 5 / 10 |}]
               [{| key := "PRJ-2"; score := 1 |}] →
         0 <= score m <= 1.
Proof.
  assert (H1 : 0 <= SEMANTIC_WEIGHT config) by (unfold SEMANTIC_WEIGHT; simpl; lra).
  assert (H2 : 0 <= TFIDF_WEIGHT config) by (unfold TFIDF_WEIGHT; simpl; lra).
  assert (H3 : SEMANTIC_WEIGHT config + TFIDF_WEIGHT config <= 1)
    by (unfold SEMANTIC_WEIGHT, TFIDF_WEIGHT; simpl; lra).
  assert (H4 : ∀ e, e ∈ [{| key := "PRJ-2"; score := 5 / 10 |}] → 0 <= score e <= 1)
    by (intros e ->%list_elem_of_singleton; simpl; lra).
  assert (H5 : ∀ e, e ∈ [{| key := "PRJ-2"; score := 1 |}] → 0 <= score e <= 1)
    by (intros e ->%list_elem_of_singleton; simpl; lra).
  split; [exact H1 |]. split; [exact H2 |]. split; [exact H3 |].
  split; [exact H4 |]. split; [exact H5 |].
  exact (merged_scores_in_unit_interval config _ _ H1 H2 H3 H4 H5).
Defined.

(** Instance of X18 at the shipped configuration: a semantic score of 0.59
    with lexical score 1 is merged to 0.672, above the 0.6 of a candidate on
    the threshold. *)
Lemma merge_inverts_order_at_threshold_witness :
  "PRJ-2"%string ≠ "PRJ-3"%string
  ∧ 59 / 100 < SEMANTIC_THRESHOLD config
  ∧ SEMANTIC_THRESHOLD config
    < 59 / 100 * SEMANTIC_WEIGHT config + 1 * TFIDF_WEIGHT config
  ∧ ∃ ma mb,
      mergeSimilarityScores config
        [{| key := "PRJ-2"; score := 59 / 100 |};
         {| key := "PRJ-3"; score := SEMANTIC_THRESHOLD config |}]
        [{| key := "PRJ-2"; score := 1 |}; {| key := "PRJ-3"; score := 1 |}]
      = [{| key := "PRJ-2"; score := ma |}; {| key := "PRJ-3"; score := mb |}]
      ∧ mb = SEMANTIC_THRESHOLD config
      ∧ mb < ma.
Proof.
  assert (H1 : "PRJ-2"%string ≠ "PRJ-3"%string) by discriminate.
  assert (H2 : 59 / 100 < SEMANTIC_THRESHOLD config)
    by (unfold SEMANTIC_THRESHOLD; simpl; lra).
  assert (H3 : SEMANTIC_THRESHOLD config
               < 59 / 100 * SEMANTIC_WEIGHT config + 1 * TFIDF_WEIGHT config)
    by (unfold SEMANTIC_THRESHOLD, SEMANTIC_WEIGHT, TFIDF_WEIGHT; simpl; lra).
  split; [exact H1 |]. split; [exact H2 |]. split; [exact H3 |].
  exact (merge_inverts_order_at_threshold config (59 / 100) 1 "PRJ-2" "PRJ-3"
           H1 H2 H3).
Defined.

(** Instance of X19 at the shipped configuration. *)
Lemma boost_raises_by_at_most_max_witness :
  weights_nonneg config
  ∧ [{| key := "PRJ-2"; score := 5 / 10 |}] !! 0%nat
    = Some {| key := "PRJ-2"; score := 5 / 10 |}
  ∧ ∃ out,
      applyBoostingLogic config (currentMetadataOf queryIssue)
        (othersMetadataOf candidateIssues)
        [{| key := "PRJ-2"; score := 5 / 10 |}] !! 0%nat = Some out
      ∧ key out = "PRJ-2"%string
      ∧ 5 / 10 <= score out <= 5 / 10 + MAX_BOOST config.
Proof.
  split; [exact config_nonneg |]. split; [reflexivity |].
  exact (proj2 (boost_raises_by_at_most_max config (currentMetadataOf queryIssue)
                  (othersMetadataOf candidateIssues)
                  [{| key := "PRJ-2"; score := 5 / 10 |}] config_nonneg)
           0%nat {| key := "PRJ-2"; score := 5 / 10 |} eq_refl).
Defined.

(** ** The result of the resolver *)

Lemma find_issue_Some (k : string) (l : list Issue.t) (i : Issue.t) :
  find_issue k l = Some i → i ∈ l ∧ Issue.key i = k.
Proof.
  unfold find_issue. intros H. apply List.find_some in H as [Hin Heq].
  split; [by apply list_elem_of_In | by apply String.eqb_eq].
Qed.

Lemma or_str_Some (s : string) : or_str (Some s) EmptyString = s.
Proof. by destruct s. Qed.

(** In a list without repeated keys, the search by key finds the entry
    itself. *)
Lemma find_key_NoDup (l : list Scored) (i : nat) (e : Scored) :
  NoDup (map key l) → l !! i = Some e → find_key (key e) l = Some e.
Proof.
  intros Hnd He. apply find_key_first. exists i. split_and!; [done | done |].
  intros j x Hlt Hx Heq.
  assert (Hi : map key l !! i = Some (key e)) by by rewrite list_lookup_fmap, He.
  assert (Hj : map key l !! j = Some (key e))
    by by rewrite list_lookup_fmap, Hx, <- Heq.
  pose proof (NoDup_lookup _ _ _ _ Hnd Hi Hj). lia.
Qed.

Section ResultProperties.

Variable weights : Weights.
Variable phraseMap : list (string * string).
Variable normalizationDictionary : gmap string string.
Variable replacePhrase : string → string → string → string.
Variable network : nat → Payload.t → Completion Response.

Local Abbreviation lexicalScored issueData all :=
  (calculateTFIDFCosineSimilarity weights phraseMap normalizationDictionary
     replacePhrase (currentOf issueData) (othersOf all)).
Local Abbreviation boostOf issueData all k :=
  (candidateBoost weights (currentMetadataOf issueData) (othersMetadataOf all) k).
Local Abbreviation scoredOf :=
  (similarityScored weights phraseMap normalizationDictionary replacePhrase network).
Local Abbreviation resolver :=
  (fetchIssues weights phraseMap normalizationDictionary replacePhrase network).
Local Abbreviation byScore := (λ a b, Result.score b - Result.score a).

(** Every scored entry carries the key and the texts of a candidate. *)
Lemma similarityScored_candidates (issueData : Jira.t) (all : list Jira.t)
  (n : nat) :
  ∃ scored,
    scoredOf issueData all n = (Normal scored, S (S n))
    ∧ map Result.key scored = map Jira.key all
    ∧ ∀ r, r ∈ scored →
        ∃ issue, issue ∈ all
                 ∧ Result.key r = Jira.key issue
                 ∧ Result.summary r = Jira.summary issue
                 ∧ Result.description r = Jira.description issue.
Proof.
  destruct (fetchSemanticSimilarity_total network
              (Field.mk (Issue.key (currentOf issueData))
                 (Issue.summary (currentOf issueData)))
              (map (λ issue, Field.mk (Issue.key issue) (Issue.summary issue))
                 (othersOf all)) n) as [sm Hsm].
  destruct (fetchSemanticSimilarity_total network
              (Field.mk (Issue.key (currentOf issueData))
                 (Issue.description (currentOf issueData)))
              (map (λ issue, Field.mk (Issue.key issue) (Issue.description issue))
                 (othersOf all)) (S n)) as [dm Hdm].
  pose proof (calculateSemanticSimilarity_eq weights network _ _ _ _ _ Hsm Hdm)
    as Hsem.
  eexists. split; [by eapply similarityScored_eq |]. split.
  { unfold mergeSimilarityScores, othersOf. rewrite !map_map. by apply map_ext. }
  intros r Hr. apply list_elem_of_fmap in Hr as (m & -> & Hm).
  unfold mergeSimilarityScores in Hm. rewrite map_map in Hm.
  apply list_elem_of_fmap in Hm as (issue & -> & Hissue). simpl.
  destruct (find_issue (Issue.key issue) (othersOf all)) as [found |] eqn:Hfind.
  - apply find_issue_Some in Hfind as [Hin Hkey].
    unfold othersOf in Hin. apply list_elem_of_fmap in Hin as (j & -> & Hj).
    exists j. simpl in Hkey. split; [done |]. split; [done |].
    change (Issue.summary <$> Some ?x) with (Some (Issue.summary x)).
    change (Issue.description <$> Some ?x) with (Some (Issue.description x)).
    by rewrite !or_str_Some.
  - exfalso. apply (find_by_key_None Issue.key) in Hfind.
    apply Hfind. apply list_elem_of_fmap. by exists issue.
Qed.

(** X21.  Every result is a candidate: its key, summary and description
    are those of an issue of the candidate list (the first one with that
    key), and the keys of the results are taken from the candidates' keys
    without repetition beyond theirs. *)
Theorem results_are_candidates (issueData : Jira.t) (all : list Jira.t) (n : nat) :
  ∃ out,
    resolver issueData all n = (Normal out, S (S n))
    ∧ current out = currentOf issueData
    ∧ map Result.key (similar out) ⊆+ map Jira.key all
    ∧ ∀ r, r ∈ similar out →
        ∃ issue, issue ∈ all
                 ∧ Result.key r = Jira.key issue
                 ∧ Result.summary r = Jira.summary issue
                 ∧ Result.description r = Jira.description issue.
Proof.
  destruct (similarityScored_candidates issueData all n)
    as (scored & Hscored & Hkeys & Hcand).
  eexists. split; [by apply fetchIssues_eq |]. split; [done |]. simpl. split.
  - rewrite <- Hkeys. apply fmap_submseteq.
    etrans; [apply sublist_submseteq, sublist_take |].
    by rewrite Array_sort_Permutation.
  - intros r Hr. apply Hcand.
    apply elem_of_take in Hr as (j & Hj & _).
    apply list_elem_of_lookup_2 in Hj. by rewrite Array_sort_Permutation in Hj.
Qed.

(** X22.  The result holds the best candidates: no candidate left out has
    a higher score than a candidate returned, and the results themselves
    are in descending order of score. *)
Theorem returned_candidates_dominate (issueData : Jira.t) (all : list Jira.t)
  (n : nat) :
  ∃ scored out dropped,
    scoredOf issueData all n = (Normal scored, S (S n))
    ∧ resolver issueData all n = (Normal out, S (S n))
    ∧ similar out ++ dropped ≡ₚ scored
    ∧ length dropped = (length all - 10)%nat
    ∧ StronglySorted (λ a b, Result.score b <= Result.score a) (similar out)
    ∧ ∀ r d, r ∈ similar out → d ∈ dropped → Result.score d <= Result.score r.
Proof.
  destruct (similarityScored_total weights phraseMap normalizationDictionary
              replacePhrase network issueData all n) as (scored & Hscored & Hkeys).
  pose proof (Array_sort_sorted Result.score scored) as Hsorted.
  exists scored. eexists. exists (drop 10 (Array_sort byScore scored)).
  split; [done |]. split; [by apply fetchIssues_eq |]. simpl.
  rewrite <- (take_drop 10 (Array_sort byScore scored)) in Hsorted.
  split_and!.
  - by rewrite take_drop, Array_sort_Permutation.
  - rewrite length_drop, Array_sort_length.
    by rewrite <- (length_map Result.key), Hkeys, length_map.
  - by apply StronglySorted_app_1_l in Hsorted.
  - intros r d Hr Hd.
    by apply (StronglySorted_app_1_elem_of _ _ _ r d Hsorted).
Qed.

(** X23.  No candidate is left out for its score: with at most ten
    candidates the result is a reordering of all of them, whatever they
    scored. *)
Theorem few_candidates_are_all_returned (issueData : Jira.t) (all : list Jira.t)
  (n : nat) :
  (length all ≤ 10)%nat →
  ∃ scored out,
    scoredOf issueData all n = (Normal scored, S (S n))
    ∧ resolver issueData all n = (Normal out, S (S n))
    ∧ similar out ≡ₚ scored
    ∧ map Result.key (similar out) ≡ₚ map Jira.key all.
Proof.
  intros Hlen.
  destruct (similarityScored_total weights phraseMap normalizationDictionary
              replacePhrase network issueData all n) as (scored & Hscored & Hkeys).
  exists scored. eexists. split; [done |]. split; [by apply fetchIssues_eq |].
  simpl.
  assert (Hall : take 10 (Array_sort byScore scored) ≡ₚ scored).
  { rewrite take_ge; [apply Array_sort_Permutation |].
    rewrite Array_sort_length.
    by rewrite <- (length_map Result.key), Hkeys, length_map. }
  split; [done |]. by rewrite Hall, Hkeys.
Qed.

(** X24.  When both calls to the provider fail and the threshold is
    positive, the ranking falls back on the lexical score: for candidates
    with distinct keys the emitted score is the lexical score times
    [TFIDF_WEIGHT] plus the boost, rounded and capped. *)
Theorem provider_failure_falls_back_on_lexical (issueData : Jira.t)
  (all : list Jira.t) (n : nat) :
  0 < SEMANTIC_THRESHOLD weights →
  NoDup (map Jira.key all) →
  ProviderFailure
    (network n
       (Payload.mk (Field.mk (Jira.key issueData) (Jira.summary issueData))
          (map (λ issue, Field.mk (Issue.key issue) (Issue.summary issue))
             (othersOf all)))) →
  ProviderFailure
    (network (S n)
       (Payload.mk (Field.mk (Jira.key issueData) (Jira.description issueData))
          (map (λ issue, Field.mk (Issue.key issue) (Issue.description issue))
             (othersOf all)))) →
  ∃ scored,
    scoredOf issueData all n = (Normal scored, S (S n))
    ∧ ∀ i r, scored !! i = Some r →
        ∃ lexical,
          lexicalScored issueData all !! i = Some lexical
          ∧ Result.key r = key lexical
          ∧ Result.score r
            = Math_min
                (Math_round
                   ((score lexical * TFIDF_WEIGHT weights
                     + boostOf issueData all (key lexical)) * 100) / 100) 1.
Proof.
  intros HT Hnd Hfs Hfd.
  pose proof (fetchSemanticSimilarity_failure network _ _ _ Hfs) as Hsm.
  pose proof (fetchSemanticSimilarity_failure network _ _ _ Hfd) as Hdm.
  pose proof (calculateSemanticSimilarity_eq weights network
                (currentOf issueData) _ _ _ _ Hsm Hdm) as Hsem.
  eexists. split; [by eapply similarityScored_eq |].
  intros i r Hr. rewrite list_lookup_fmap in Hr.
  unfold mergeSimilarityScores in Hr. rewrite !list_lookup_fmap in Hr.
  destruct (othersOf all !! i) as [issue |] eqn:Hissue; [| done].
  simpl in Hr. injection Hr as <-. simpl.
  rewrite !lookup_empty. simpl.
  pose proof (calculateTFIDFCosineSimilarity_lookup weights phraseMap
                normalizationDictionary replacePhrase (currentOf issueData)
                _ _ _ Hissue) as Hlex.
  eexists. split; [exact Hlex |]. simpl. split; [done |].
  assert (Hkeys : map key (lexicalScored issueData all) = map Jira.key all).
  { rewrite calculateTFIDFCosineSimilarity_map. unfold othersOf.
    rewrite !map_map. by apply map_ext. }
  assert (Hfind := find_key_NoDup (lexicalScored issueData all) i _
                     ltac:(by rewrite Hkeys) Hlex).
  simpl in Hfind. rewrite Hfind.
  destruct (Rge_dec _ _) as [Hge | _]; [lra |].
  change (score <$> Some ?e) with (Some (score e)). rewrite or_num_Some. simpl.
  do 3 f_equal. lra.
Qed.

End ResultProperties.

(** Instance of X20: the labels of the query reordered and repeated. *)
Lemma boost_depends_on_sets_witness :
  Meta.issuetype (Meta.mk "PRJ-1" None ["ui"; "mobile"; "ui"]%string [])
  = Meta.issuetype (Meta.mk "PRJ-1" None ["mobile"; "ui"]%string [])
  ∧ (∀ x, x ∈ ["ui"; "mobile"; "ui"]%string ↔ x ∈ ["mobile"; "ui"]%string)
  ∧ boostFor config (Meta.mk "PRJ-1" None ["ui"; "mobile"; "ui"]%string [])
      (Meta.mk "PRJ-2" None ["ui"]%string [])
    = boostFor config (Meta.mk "PRJ-1" None ["mobile"; "ui"]%string [])
        (Meta.mk "PRJ-2" None ["ui"]%string []).
Proof.
  assert (H1 : Meta.issuetype (Meta.mk "PRJ-1" None ["ui"; "mobile"; "ui"]%string [])
               = Meta.issuetype (Meta.mk "PRJ-1" None ["mobile"; "ui"]%string []))
    by reflexivity.
  assert (H2 : ∀ x, x ∈ ["ui"; "mobile"; "ui"]%string ↔ x ∈ ["mobile"; "ui"]%string).
  { intros x. rewrite !elem_of_cons, !elem_of_nil. tauto. }
  split; [exact H1 |]. split; [exact H2 |].
  exact (proj2 (boost_depends_on_sets config
                  (Meta.mk "PRJ-1" None ["mobile"; "ui"]%string [])
                  (Meta.mk "PRJ-2" None ["ui"]%string []))
           (Meta.mk "PRJ-1" None ["ui"; "mobile"; "ui"]%string [])
           H1 H2 (λ _, reflexivity _)).
Defined.

(** Instance of X23: two candidates, both returned. *)
Lemma few_candidates_are_all_returned_witness :
  (length candidateIssues ≤ 10)%nat
  ∧ ∃ out,
      fetchIssues config [] ∅ no_phrases provider_down queryIssue candidateIssues
        0%nat = (Normal out, 2%nat)
      ∧ map Result.key (similar out) ≡ₚ map Jira.key candidateIssues.
Proof.
  assert (H : (length candidateIssues ≤ 10)%nat) by (simpl; lia).
  split; [exact H |].
  destruct (few_candidates_are_all_returned config [] ∅ no_phrases provider_down
              queryIssue candidateIssues 0%nat H)
    as (scored & out & _ & Hout & _ & Hkeys).
  exists out. split; [exact Hout | exact Hkeys].
Defined.

Lemma candidateIssues_keys_NoDup : NoDup (map Jira.key candidateIssues).
Proof.
  simpl. apply NoDup_cons. split.
  - intros H. apply list_elem_of_singleton in H. discriminate H.
  - apply NoDup_singleton.
Defined.

Lemma config_threshold_positive : 0 < SEMANTIC_THRESHOLD config.
Proof. unfold SEMANTIC_THRESHOLD. simpl. lra. Defined.

(** Instance of X24: the provider is down for both requests. *)
Lemma provider_failure_falls_back_on_lexical_witness :
  0 < SEMANTIC_THRESHOLD config
  ∧ NoDup (map Jira.key candidateIssues)
  ∧ ProviderFailure
      (provider_down 0%nat
         (Payload.mk (Field.mk (Jira.key queryIssue) (Jira.summary queryIssue))
            (map (λ issue, Field.mk (Issue.key issue) (Issue.summary issue))
               (othersOf candidateIssues))))
  ∧ ProviderFailure
      (provider_down 1%nat
         (Payload.mk (Field.mk (Jira.key queryIssue) (Jira.description queryIssue))
            (map (λ issue, Field.mk (Issue.key issue) (Issue.description issue))
               (othersOf candidateIssues))))
  ∧ ∃ scored,
      similarityScored config [] ∅ no_phrases provider_down queryIssue
        candidateIssues 0%nat = (Normal scored, 2%nat)
      ∧ ∀ i r, scored !! i = Some r →
          ∃ lexical,
            calculateTFIDFCosineSimilarity config [] ∅ no_phrases
              (currentOf queryIssue) (othersOf candidateIssues) !! i
            = Some lexical
            ∧ Result.key r = key lexical
            ∧ Result.score r
              = Math_min
                  (Math_round
                     ((score lexical * TFIDF_WEIGHT config
                       + candidateBoost config (currentMetadataOf queryIssue)
                           (othersMetadataOf candidateIssues) (key lexical))
                      * 100) / 100) 1.
Proof.
  split; [exact config_threshold_positive |].
  split; [exact candidateIssues_keys_NoDup |].
  split; [apply request_rejected |]. split; [apply request_rejected |].
  exact (provider_failure_falls_back_on_lexical config [] ∅ no_phrases
           provider_down queryIssue candidateIssues 0%nat
           config_threshold_positive candidateIssues_keys_NoDup
           (request_rejected _) (request_rejected _)).
Defined.

(** ** Retrieval of the candidates *)

Lemma pageCount_next (T j : nat) :
  (50 * j + 50 < T)%nat → (j + 1 < pageCount T)%nat.
Proof.
  unfold pageCount. intros H.
  assert (j + 2 ≤ (T + 49) / 50)%nat
    by (apply Nat.div_le_lower_bound; lia).
  lia.
Qed.

Lemma pageCount_last (T j : nat) :
  (j < pageCount T)%nat → ¬ (50 * j + 50 < T)%nat → pageCount T = S j.
Proof.
  unfold pageCount. intros Hj Hlast.
  assert ((T + 49) / 50 < j + 2)%nat
    by (apply Nat.Div0.div_lt_upper_bound; lia).
  lia.
Qed.

(** The loop from page [j] on, for a tracker that reports the same total
    with every page. *)
Lemma searchLoop_stable (pages : nat → Page) (T fuel j : nat) (all : list Jira.t) :
  (∀ s, total (pages s) = T) →
  (j < pageCount T)%nat →
  searchLoop (λ s, Normal (pages s)) fuel (50 * j) all
  = if decide (pageCount T - j ≤ fuel)%nat
    then Some (Normal (all ++ concat (map (λ i, issues (pages (50 * i)%nat))
                                        (seq j (pageCount T - j)))))
    else None.
Proof.
  intros Htotal. revert j all.
  induction fuel as [|fuel IH]; intros j all Hj; cbn [searchLoop].
  - rewrite decide_False by lia. done.
  - cbv zeta. rewrite Htotal.
    destruct (50 * j + 50 <? T)%nat eqn:Hnext.
    + apply Nat.ltb_lt in Hnext.
      pose proof (pageCount_next T j Hnext) as Hj'.
      replace (50 * j + 50)%nat with (50 * (j + 1))%nat by lia.
      rewrite IH by done.
      replace (pageCount T - j)%nat with (S (pageCount T - (j + 1))) by lia.
      cbn [seq map concat]. replace (S j) with (j + 1)%nat by lia.
      rewrite <- app_assoc.
      by repeat case_decide; try lia.
    + apply Nat.ltb_ge in Hnext.
      rewrite (pageCount_last T j Hj) by lia.
      replace (S j - j)%nat with 1%nat by lia. cbn [seq map concat].
      rewrite decide_True by lia. by rewrite app_nil_r.
Qed.

(** X26.  When the tracker reports the same total [T] with every page, the
    loop stops after [max 1 (ceil (T / 50))] requests, not earlier, and
    returns the issues of these pages in order; the first page is
    requested and kept even when the total is 0. *)
Theorem search_collects_the_pages (pages : nat → Page) (T fuel : nat) :
  (∀ s, total (pages s) = T) →
  ((pageCount T ≤ fuel)%nat →
   searchAll (λ s, Normal (pages s)) fuel
   = Some (Normal (firstPages pages (pageCount T))))
  ∧ ((fuel < pageCount T)%nat →
     searchAll (λ s, Normal (pages s)) fuel = None)
  ∧ (1 ≤ pageCount T)%nat.
Proof.
  intros Htotal.
  assert (Hpos : (0 < pageCount T)%nat) by (unfold pageCount; lia).
  pose proof (searchLoop_stable pages T fuel 0 [] Htotal Hpos) as Hloop.
  rewrite Nat.sub_0_r in Hloop. unfold searchAll, firstPages.
  split_and!; [| | lia].
  - intros Hfuel. change 0%nat with (50 * 0)%nat at 1.
    rewrite Hloop, decide_True by done. done.
  - intros Hfuel. change 0%nat with (50 * 0)%nat at 1.
    rewrite Hloop, decide_False by lia. done.
Qed.

(** Instance of X26: 120 issues are fetched in three requests. *)
Lemma search_collects_the_pages_witness :
  (∀ s, total (tracker_120 s) = 120%nat)
  ∧ (pageCount 120 ≤ 3)%nat
  ∧ searchAll (λ s, Normal (tracker_120 s)) 3
    = Some (Normal (firstPages tracker_120 (pageCount 120))).
Proof.
  assert (H1 : ∀ s, total (tracker_120 s) = 120%nat) by reflexivity.
  assert (H2 : (pageCount 120 ≤ 3)%nat) by (vm_compute; lia).
  split; [exact H1 |]. split; [exact H2 |].
  exact (proj1 (search_collects_the_pages tracker_120 120 3 H1) H2).
Defined.

(** X27.  The loop has no bound of its own: against a tracker that reports
    with every page a total beyond the next page, it never finishes,
    whatever number of iterations it is given. *)
Theorem search_is_unbounded (search : nat → Completion Page) :
  (∀ s, ∃ page, search s = Normal page ∧ (s + 50 < total page)%nat) →
  ∀ fuel, searchAll search fuel = None.
Proof.
  intros Hgrow fuel. unfold searchAll. generalize 0%nat (@nil Jira.t).
  induction fuel as [|fuel IH]; intros startAt all; simpl; [done |].
  destruct (Hgrow startAt) as (page & -> & Hmore).
  apply Nat.ltb_lt in Hmore. rewrite Hmore. apply IH.
Qed.

(** Instance of X27: a tracker whose total grows with every request. *)
Lemma search_is_unbounded_witness :
  (∀ s, ∃ page,
     (λ s, Normal {| total := s + 51; issues := [] |}) s = Normal page
     ∧ (s + 50 < total page)%nat)
  ∧ searchAll (λ s, Normal {| total := s + 51; issues := [] |}) 1000 = None.
Proof.
  assert (H : ∀ s, ∃ page,
             (λ s, Normal {| total := s + 51; issues := [] |}) s = Normal page
             ∧ (s + 50 < total page)%nat).
  { intros s. eexists. split; [reflexivity | simpl; lia]. }
  split; [exact H |].
  exact (search_is_unbounded _ H 1000%nat).
Defined.

(** The loop from page [j] on, when the request for page [k] throws and the
    pages before it announce more. *)
Lemma searchLoop_failure (search : nat → Completion Page) (pages : nat → Page)
  (error : string) (k d j fuel : nat) (all : list Jira.t) :
  k = (j + d)%nat →
  (∀ i, (j ≤ i < k)%nat →
        search (50 * i)%nat = Normal (pages i)
        ∧ (50 * i + 50 < total (pages i))%nat) →
  search (50 * k)%nat = Throw error →
  (d < fuel)%nat →
  searchLoop search fuel (50 * j) all = Some (Throw error).
Proof.
  revert j fuel all. induction d as [|d IH]; intros j fuel all -> Hpages Hk Hfuel.
  - destruct fuel as [|fuel]; [lia |]. cbn [searchLoop].
    rewrite Nat.add_0_r in Hk. by rewrite Hk.
  - destruct fuel as [|fuel]; [lia |]. cbn [searchLoop].
    destruct (Hpages j ltac:(lia)) as [-> Hmore]. cbv zeta.
    apply Nat.ltb_lt in Hmore. rewrite Hmore.
    replace (50 * j + 50)%nat with (50 * (j + 1))%nat by lia.
    apply IH; [lia | | done | lia].
    intros i Hi. apply Hpages. lia.
Qed.

(** X28.  A failure of the tracker is not absorbed: when the request for
    some page throws while the pages before it announced more issues, the
    loop ends with that exception and the issues collected so far are
    lost. *)
Theorem search_failure_propagates (search : nat → Completion Page)
  (pages : nat → Page) (error : string) (k fuel : nat) :
  (∀ i, (i < k)%nat →
        search (50 * i)%nat = Normal (pages i)
        ∧ (50 * i + 50 < total (pages i))%nat) →
  search (50 * k)%nat = Throw error →
  (k < fuel)%nat →
  searchAll search fuel = Some (Throw error).
Proof.
  intros Hpages Hk Hfuel. unfold searchAll.
  change 0%nat with (50 * 0)%nat at 1.
  apply (searchLoop_failure search pages error k k 0 fuel []); [done | | done | done].
  intros i [_ Hi]. by apply Hpages.
Qed.

(** Instance of X28: the second request fails. *)
Lemma search_failure_propagates_witness :
  (∀ i, (i < 1)%nat →
        (λ s, if (s =? 0)%nat then Normal (tracker_120 s) else Throw "503") (50 * i)%nat
        = Normal (tracker_120 i)
        ∧ (50 * i + 50 < total (tracker_120 i))%nat)
  ∧ (λ s, if (s =? 0)%nat then Normal (tracker_120 s) else Throw "503") (50 * 1)%nat
    = Throw "503"
  ∧ (1 < 5)%nat
  ∧ searchAll (λ s, if (s =? 0)%nat then Normal (tracker_120 s) else Throw "503") 5
    = Some (Throw "503").
Proof.
  assert (H1 : ∀ i, (i < 1)%nat →
    (λ s, if (s =? 0)%nat then Normal (tracker_120 s) else Throw "503") (50 * i)%nat
    = Normal (tracker_120 i)
    ∧ (50 * i + 50 < total (tracker_120 i))%nat).
  { intros i Hi. assert (i = 0%nat) as -> by lia. simpl. split; [done | lia]. }
  assert (H2 : (λ s, if (s =? 0)%nat then Normal (tracker_120 s) else Throw "503")
                 (50 * 1)%nat = Throw "503") by reflexivity.
  assert (H3 : (1 < 5)%nat) by lia.
  split; [exact H1 |]. split; [exact H2 |]. split; [exact H3 |].
  exact (search_failure_propagates _ tracker_120 "503" 1 5 H1 H2 H3).
Defined.
